(** * plot_tfr_first_birth: fertility indicators per country

    A shallow embedding of the data pipeline of [plot_tfr_first_birth.py]:

    - the ISO-3 filter on the [Code] column (a compiled regular
      expression applied to [str(c)]),
    - the "latest year per country" selection
      ([sort_values("Year").groupby("Entity").last().reset_index()]),
    - the indicators TFR and MAC computed on binary64 floats, in the
      order in which numpy adds (a table of one row is summed pairwise),
      next to the same lines on int64 columns and to the formulas of the
      docstring in exact arithmetic,
    - the drop of missing and degenerate rows,
    - the hand-coded region classifier [get_region].

    A data frame is a list of rows.  Float cells are Rocq's primitive
    binary64 floats, which are numpy's [float64]; a missing float cell is
    NaN, a missing object cell is [None]. *)

From Stdlib Require Import ZArith List String Ascii Floats Sorted Permutation Lia Bool.
From Stdlib Require Import OrdersEx.
From Stdlib Require QArith.
From stdpp Require Import gmap strings sorting.
Import ListNotations.

#[local] Set Warnings "-inexact-float".
#[local] Open Scope string_scope.
#[local] Open Scope list_scope.

(* ===================================================================== *)
(** * 1. The regular expression [^[A-Z]{3}$] *)
(* ===================================================================== *)

Module Regex.

(** The fragment of Python's [re] syntax the script uses: the two
    anchors and a counted repetition of a character range. *)
Inductive node : Type :=
| Bol                               (* ^ *)
| Eol                               (* $ *)
| Rep (n : nat) (lo hi : ascii).    (* [lo-hi]{n} *)

Definition pattern := list node.

Definition in_range (lo hi c : ascii) : bool :=
  (N_of_ascii lo <=? N_of_ascii c)%N && (N_of_ascii c <=? N_of_ascii hi)%N.

(** [n] characters of the range, then the rest of the subject. *)
Fixpoint eat (n : nat) (lo hi : ascii) (s : string) : option string :=
  match n with
  | O => Some s
  | S n' =>
      match s with
      | String c s' => if in_range lo hi c then eat n' lo hi s' else None
      | EmptyString => None
      end
  end.

Definition newline : string := String (ascii_of_nat 10) EmptyString.

(** Without [re.MULTILINE], [$] matches at the end of the subject and
    also just before a newline that ends the subject. *)
Definition at_eol (s : string) : bool :=
  match s with
  | EmptyString => true
  | String c EmptyString => Ascii.eqb c (ascii_of_nat 10)
  | _ => false
  end.

(** [matches_from p start s]: [p] matches a prefix of [s]; [start] tells
    whether [s] is the whole subject (no character consumed yet), which
    is where [^] matches. *)
Fixpoint matches_from (p : pattern) (start : bool) (s : string) : bool :=
  match p with
  | [] => true
  | Bol :: p' => start && matches_from p' start s
  | Eol :: p' => at_eol s && matches_from p' start s
  | Rep n lo hi :: p' =>
      match eat n lo hi s with
      | Some s' => matches_from p' (start && Nat.eqb n 0) s'
      | None => false
      end
  end.

(** [bool(p.match(s))]: a match anchored at position 0. *)
Definition re_match (p : pattern) (s : string) : bool := matches_from p true s.

(** [iso3 = re.compile(r"^[A-Z]{3}$")] *)
Definition iso3 : pattern := [Bol; Rep 3 "A" "Z"; Eol].

Definition is_upper (c : ascii) : bool := in_range "A" "Z" c.

Definition str3 (a b c : ascii) : string :=
  String a (String b (String c EmptyString)).

(** What the compiled pattern accepts: three capitals, optionally
    followed by one final newline. *)
Lemma iso3_match_iff (s : string) :
  re_match iso3 s = true <->
  exists a b c, is_upper a = true /\ is_upper b = true /\ is_upper c = true /\
                (s = str3 a b c \/ s = (str3 a b c ++ newline)%string).
Proof.
  unfold re_match, iso3, is_upper, str3, newline. split.
  - destruct s as [|a [|b [|c r]]]; simpl; try discriminate.
    + destruct (in_range "A" "Z" a); discriminate.
    + destruct (in_range "A" "Z" a), (in_range "A" "Z" b); discriminate.
    + destruct (in_range "A" "Z" a) eqn:Ha; [|discriminate].
      destruct (in_range "A" "Z" b) eqn:Hb; [|discriminate].
      destruct (in_range "A" "Z" c) eqn:Hc; [|discriminate].
      rewrite andb_true_r. intros Hr. exists a, b, c.
      repeat split; trivial.
      destruct r as [|d [|e r]]; simpl in Hr; try discriminate.
      * now left.
      * right. apply Ascii.eqb_eq in Hr. now subst d.
  - intros (a & b & c & Ha & Hb & Hc & [-> | ->]); simpl;
      now rewrite Ha, Hb, Hc.
Qed.

Example iso3_FRA : re_match iso3 "FRA" = true.
Proof. reflexivity. Qed.

Example iso3_lower : re_match iso3 "fra" = false.
Proof. reflexivity. Qed.

Example iso3_aggregate : re_match iso3 "OWID_WRL" = false.
Proof. reflexivity. Qed.

Example iso3_empty : re_match iso3 "" = false.
Proof. reflexivity. Qed.

End Regex.

(* ===================================================================== *)
(** * 2. Regions *)
(* ===================================================================== *)

Module Regions.

(** The four hand-coded sets of ISO-3 codes. *)
Definition africa : gset string := list_to_set [
  "DZA";"AGO";"BEN";"BWA";"BFA";"BDI";"CPV";"CMR";"CAF";"TCD";"COM";"COD";
  "COG";"CIV";"DJI";"EGY";"GNQ";"ERI";"SWZ";"ETH";"GAB";"GMB";"GHA";"GIN";
  "GNB";"KEN";"LSO";"LBR";"LBY";"MDG";"MWI";"MLI";"MRT";"MUS";"MAR";"MOZ";
  "NAM";"NER";"NGA";"RWA";"STP";"SEN";"SLE";"SOM";"ZAF";"SSD";"SDN";"TZA";
  "TGO";"TUN";"UGA";"ZMB";"ZWE";"REU";"MYT";"SHN"].

Definition europe : gset string := list_to_set [
  "ALB";"AND";"AUT";"BLR";"BEL";"BIH";"BGR";"HRV";"CYP";"CZE";"DNK";"EST";
  "FIN";"FRA";"DEU";"GRC";"HUN";"ISL";"IRL";"ITA";"XKX";"LVA";"LIE";"LTU";
  "LUX";"MLT";"MDA";"MCO";"MNE";"NLD";"MKD";"NOR";"POL";"PRT";"ROU";"RUS";
  "SMR";"SRB";"SVK";"SVN";"ESP";"SWE";"CHE";"UKR";"GBR";"VAT"].

Definition americas : gset string := list_to_set [
  "ATG";"ARG";"BHS";"BRB";"BLZ";"BOL";"BRA";"CAN";"CHL";"COL";"CRI";"CUB";
  "DMA";"DOM";"ECU";"SLV";"GRD";"GTM";"GUY";"HTI";"HND";"JAM";"MEX";"NIC";
  "PAN";"PRY";"PER";"KNA";"LCA";"VCT";"SUR";"TTO";"USA";"URY";"VEN"].

Definition oceania : gset string := list_to_set [
  "AUS";"FJI";"KIR";"MHL";"FSM";"NRU";"NZL";"PLW";"PNG";"WSM";"SLB";"TON";
  "TUV";"VUT"].

(** [get_region], test after test as the source writes them. *)
Definition get_region (code : string) : string :=
  if decide (code ∈ africa) then "Africa"
  else if decide (code ∈ europe) then "Europe"
  else if decide (code ∈ americas) then "Americas"
  else if decide (code ∈ oceania) then "Oceania"
  else "Asia & Middle East".

(** The keys of [palette]: the five labels a point can be coloured by. *)
Definition labels : list string :=
  ["Africa"; "Europe"; "Americas"; "Oceania"; "Asia & Middle East"].

(** A classifier that runs membership tests in a given order and falls
    back to the last label; [get_region] is the instance [tests]. *)
Fixpoint classify (ts : list (gset string * string)) (code : string) : string :=
  match ts with
  | [] => "Asia & Middle East"
  | (set, label) :: ts' => if decide (code ∈ set) then label else classify ts' code
  end.

Definition tests : list (gset string * string) :=
  [(africa, "Africa"); (europe, "Europe"); (americas, "Americas"); (oceania, "Oceania")].

Lemma get_region_classify code : get_region code = classify tests code.
Proof. reflexivity. Qed.

(** Disjointness of two sets, decided by running through the first. *)
Definition disjointb (X Y : gset string) : bool :=
  forallb (λ c, negb (bool_decide (c ∈ Y))) (elements X).

Lemma disjointb_spec X Y : disjointb X Y = true → X ## Y.
Proof.
  unfold disjointb. rewrite forallb_forall. intros H c HX HY.
  specialize (H c). rewrite <- list_elem_of_In, elem_of_elements in H.
  specialize (H HX). apply negb_true_iff, bool_decide_eq_false in H. auto.
Qed.

Lemma africa_europe : africa ## europe.
Proof. apply disjointb_spec. vm_compute. reflexivity. Qed.
Lemma africa_americas : africa ## americas.
Proof. apply disjointb_spec. vm_compute. reflexivity. Qed.
Lemma africa_oceania : africa ## oceania.
Proof. apply disjointb_spec. vm_compute. reflexivity. Qed.
Lemma europe_americas : europe ## americas.
Proof. apply disjointb_spec. vm_compute. reflexivity. Qed.
Lemma europe_oceania : europe ## oceania.
Proof. apply disjointb_spec. vm_compute. reflexivity. Qed.
Lemma americas_oceania : americas ## oceania.
Proof. apply disjointb_spec. vm_compute. reflexivity. Qed.

End Regions.

(* ===================================================================== *)
(** * 3. The data frame and the filter step *)
(* ===================================================================== *)

Module Table.

(** One line of [fertility-rate-by-age-group.csv].  [Entity] and [Code]
    are object cells ([None] is a missing cell, which pandas holds as
    NaN); [Year] is a number or missing; [rates] holds the nine cells of
    the columns [cols], in that order, missing ones as NaN. *)
Record row : Type := mkRow {
  Entity : option string;
  Code : option string;
  Year : option Z;
  rates : list float
}.

Definition frame := list row.

(** [cols = ["f12", ..., "f52"]]: the positions of the nine rate columns. *)
Definition cols : list nat := seq 0 9.

(** The cell of rate column [j]. *)
Definition rate (j : nat) (r : row) : float := default nan (rates r !! j).

(** [str(c)] on a cell of the [Code] column: a string is itself, the
    missing cell is the float NaN and prints as [nan]. *)
Definition py_str (c : option string) : string :=
  match c with
  | Some s => s
  | None => "nan"
  end.

(** [lambda c: bool(iso3.match(str(c)))] *)
Definition is_iso3 (r : row) : bool := Regex.re_match Regex.iso3 (py_str (Code r)).

(** [df = df[df["Code"].apply(...)]]: boolean-mask selection, on a frame
    with at least one row.  (On a frame without rows the mask is not a
    boolean one: see [run_filter_step].) *)
Definition iso3_filter (df : frame) : frame := List.filter is_iso3 df.

(** ** [sort_values("Year")] *)

(** Ascending order with missing years last ([na_position="last"]). *)
Definition year_le (a b : option Z) : Prop :=
  match a, b with
  | Some x, Some y => (x ≤ y)%Z
  | _, None => True
  | None, Some _ => False
  end.

Definition Year_le (r1 r2 : row) : Prop := year_le (Year r1) (Year r2).

#[global] Instance year_le_dec : RelDecision year_le.
Proof. intros [x|] [y|]; simpl; apply _. Defined.

#[global] Instance Year_le_dec : RelDecision Year_le.
Proof. intros r1 r2. unfold Year_le. apply _. Defined.

(** pandas sorts with numpy's default [kind="quicksort"], which promises
    no order among rows of equal year.  What the selection relies on is
    only that the result is the same rows in ascending year order. *)
Definition sorted_by_Year (df s : frame) : Prop :=
  s ≡ₚ df ∧ StronglySorted Year_le s.

(** One such order, to run the pipeline on examples: a stable merge
    sort.  numpy's quicksort may leave rows of equal year in another
    order; the theorems that depend on the order are stated for every
    [sorted_by_Year] arrangement. *)
Definition sort_values_Year (df : frame) : frame := merge_sort Year_le df.

(** ** [groupby("Entity").last().reset_index()] *)

(** String order of Python: by code point, which on UTF-8 strings is the
    order of the bytes. *)
Definition str_le (a b : string) : Prop := String_as_OT.compare a b ≠ Gt.

#[global] Instance str_le_dec : RelDecision str_le.
Proof. intros a b. unfold str_le. apply _. Defined.

(** The group keys: the distinct entities, sorted ([sort=True]); rows
    with a missing entity belong to no group ([dropna=True]). *)
Definition group_keys (df : frame) : list string :=
  merge_sort str_le (remove_dups (omap Entity df)).

Definition group (k : string) (df : frame) : frame :=
  filter (λ r, Entity r = Some k) df.

(** [last()] of an object or integer column: the last cell that is not
    missing, a missing cell when there is none. *)
Definition last_valid {A} (l : list (option A)) : option A := last (omap id l).

(** [last()] of a float column. *)
Definition last_valid_float (l : list float) : float :=
  default nan (last (filter (λ x, is_nan x = false) l)).

(** The aggregated row of the group with key [k]. *)
Definition agg_last (k : string) (g : frame) : row :=
  {| Entity := Some k;
     Code := last_valid (Code <$> g);
     Year := last_valid (Year <$> g);
     rates := (λ j, last_valid_float (rate j <$> g)) <$> cols |}.

Definition groupby_Entity_last (df : frame) : frame :=
  (λ k, agg_last k (group k df)) <$> group_keys df.

(** [latest = df.sort_values("Year").groupby("Entity").last().reset_index()] *)
Definition latest_of (df : frame) : frame :=
  groupby_Entity_last (sort_values_Year df).

(** The filter step of the script, lines 27 to 31, on a frame with at
    least one row. *)
Definition filter_step (df : frame) : frame := latest_of (iso3_filter df).

(** ** Running the filter step *)

Inductive exception : Type :=
| KeyError (key : string).

Inductive outcome (A : Type) : Type :=
| returned (a : A)
| raised (e : exception).
Arguments returned {A} a.
Arguments raised {A} e.

(** Lines 27 to 31 as they run.  On a frame without rows (a CSV file with
    its header line only) [apply] returns an empty Series that is not of
    booleans; indexing the frame with it selects a list of no columns,
    and [sort_values("Year")] on the frame without columns raises
    [KeyError].  On a frame with rows the mask is boolean and the lines
    return [filter_step df], also when no row passes the test. *)
Definition run_filter_step (df : frame) : outcome frame :=
  match df with
  | [] => raised (KeyError "Year")
  | _ :: _ => returned (filter_step df)
  end.

(** ** Orders *)

#[global] Instance year_le_trans : Transitive year_le.
Proof. intros [x|] [y|] [z|]; simpl; try tauto; lia. Qed.

#[global] Instance year_le_total : Total year_le.
Proof. intros [x|] [y|]; simpl; try tauto; lia. Qed.

#[global] Instance Year_le_trans : Transitive Year_le.
Proof. intros r1 r2 r3. unfold Year_le. apply year_le_trans. Qed.

#[global] Instance Year_le_total : Total Year_le.
Proof. intros r1 r2. unfold Year_le. apply year_le_total. Qed.

Lemma str_compare_lt_gt a b :
  String_as_OT.compare a b = Lt → String_as_OT.compare b a = Gt.
Proof.
  intros H.
  destruct (String_as_OT.compare_spec b a) as [E|L|G]; trivial.
  - assert (b = a) as -> by exact E.
    destruct (String_as_OT.compare_spec a a) as [_|L|L];
      try discriminate; destruct (irreflexivity String_as_OT.lt a L).
  - destruct (irreflexivity String_as_OT.lt a).
    transitivity b; [exact H | exact L].
Qed.

#[global] Instance str_le_trans : Transitive str_le.
Proof.
  intros a b c. unfold str_le.
  destruct (String_as_OT.compare_spec a b) as [->|Hab|_]; [tauto | | tauto].
  destruct (String_as_OT.compare_spec b c) as [<-|Hbc|_]; [ | | tauto].
  - intros _ _. unfold String_as_OT.lt in Hab. congruence.
  - intros _ _. assert (String_as_OT.lt a c) as H by (etransitivity; eassumption).
    unfold String_as_OT.lt in H. congruence.
Qed.

#[global] Instance str_le_total : Total str_le.
Proof.
  intros a b. unfold str_le.
  destruct (String_as_OT.compare_spec a b) as [->|Hab|Hba].
  - left. discriminate.
  - left. discriminate.
  - right. unfold String_as_OT.lt in Hba. congruence.
Qed.

#[global] Instance str_le_antisym : AntiSymm (=) str_le.
Proof.
  intros a b. unfold str_le.
  destruct (String_as_OT.compare_spec a b) as [->|Hab|Hba]; [tauto | | tauto].
  intros _ H. destruct H. now apply str_compare_lt_gt.
Qed.

(** ** The sort *)

Lemma sort_values_Year_spec df : sorted_by_Year df (sort_values_Year df).
Proof.
  split.
  - apply merge_sort_Permutation.
  - apply (StronglySorted_merge_sort Year_le).
Qed.

(** ** The group keys *)

Lemma elem_of_group_keys k df :
  k ∈ group_keys df ↔ ∃ r, r ∈ df ∧ Entity r = Some k.
Proof.
  unfold group_keys. rewrite merge_sort_Permutation, elem_of_remove_dups.
  apply list_elem_of_omap.
Qed.

Lemma group_keys_sorted df : StronglySorted str_le (group_keys df).
Proof. apply (StronglySorted_merge_sort str_le). Qed.

Lemma group_keys_NoDup df : NoDup (group_keys df).
Proof.
  unfold group_keys. rewrite merge_sort_Permutation. apply NoDup_remove_dups.
Qed.

(** The keys depend on the set of entities only, not on the row order. *)
Lemma group_keys_unique df ks :
  StronglySorted str_le ks → NoDup ks →
  (∀ k, k ∈ ks ↔ ∃ r, r ∈ df ∧ Entity r = Some k) →
  group_keys df = ks.
Proof.
  intros Hs Hn Hk.
  apply (StronglySorted_unique str_le); auto using group_keys_sorted.
  apply NoDup_Permutation; auto using group_keys_NoDup.
  intros k. rewrite elem_of_group_keys, Hk. tauto.
Qed.

Lemma group_keys_Permutation df1 df2 :
  df1 ≡ₚ df2 → group_keys df1 = group_keys df2.
Proof.
  intros Hp. apply group_keys_unique;
    auto using group_keys_sorted, group_keys_NoDup.
  intros k. rewrite elem_of_group_keys. now setoid_rewrite Hp.
Qed.

(** ** Sorted lists and their last element *)

Section sorted_last.
Context {A : Type} (R : relation A).

Lemma StronglySorted_last l x :
  StronglySorted R l → x ∈ l → ∃ z, last l = Some z ∧ (x = z ∨ R x z).
Proof.
  induction 1 as [|a l Hl IH Ha]; intros Hx.
  - inversion Hx.
  - destruct l as [|b l].
    + apply list_elem_of_singleton in Hx. subst x. exists a. now split; [|left].
    + rewrite last_cons_cons. apply elem_of_cons in Hx as [->|Hx].
      * destruct (last_is_Some (b :: l)) as [_ [z Hz]]; [discriminate|].
        exists z. split; [exact Hz|]. right.
        rewrite Forall_forall in Ha. apply Ha.
        now apply last_Some_elem_of.
      * now apply IH.
Qed.

Lemma StronglySorted_filter (P : A → Prop) `{!∀ x, Decision (P x)} l :
  StronglySorted R l → StronglySorted R (filter P l).
Proof.
  induction 1 as [|a l Hl IH Ha]; [constructor|].
  rewrite filter_cons. destruct (decide (P a)); [|exact IH].
  constructor; [exact IH|].
  rewrite Forall_forall in Ha. apply Forall_forall.
  intros y [_ Hy]%list_elem_of_filter. now apply Ha.
Qed.

End sorted_last.

(** The years present in a sorted frame come in ascending order. *)
Lemma sorted_years s :
  StronglySorted Year_le s → StronglySorted Z.le (omap Year s).
Proof.
  induction 1 as [|r s Hs IH Hr]; [constructor|].
  cbn. destruct (Year r) as [y|] eqn:Hy; [|exact IH].
  constructor; [exact IH|].
  rewrite Forall_forall in Hr. apply Forall_forall.
  intros y' (r' & Hr' & Hy')%list_elem_of_omap.
  specialize (Hr r' Hr'). unfold Year_le, year_le in Hr.
  now rewrite Hy, Hy' in Hr.
Qed.

(** ** [last()] cell by cell *)

Lemma last_valid_snoc {A} (l : list (option A)) (x : A) :
  last_valid (l ++ [Some x]) = Some x.
Proof. unfold last_valid. rewrite omap_app. cbn. apply last_snoc. Qed.

Lemma last_valid_singleton {A} (c : option A) : last_valid [c] = c.
Proof. now destruct c. Qed.

Lemma last_valid_fmap {A B} (f : A → option B) (l : list A) :
  last_valid (f <$> l) = last (omap f l).
Proof.
  unfold last_valid. f_equal. induction l as [|a l IH]; [reflexivity|].
  cbn. rewrite IH. now destruct (f a).
Qed.

(** Primitive floats have one NaN. *)
Lemma is_nan_eq x : is_nan x = true → x = nan.
Proof.
  unfold is_nan. rewrite FloatAxioms.eqb_spec. intros H.
  apply Prim2SF_inj. change (Prim2SF nan) with S754_nan.
  destruct (Prim2SF x) as [s|s| |s m e]; trivial; exfalso; revert H.
  - now destruct s.
  - now destruct s.
  - unfold SFeqb, SFcompare. destruct s; rewrite Z.compare_refl.
    + unfold CompOpp. rewrite Pos.compare_cont_refl. discriminate.
    + rewrite Pos.compare_cont_refl. discriminate.
Qed.

Lemma last_valid_float_singleton x : last_valid_float [x] = x.
Proof.
  unfold last_valid_float. rewrite filter_cons, filter_nil.
  destruct (decide (is_nan x = false)) as [H|H]; [reflexivity|].
  cbn. symmetry. apply is_nan_eq. now destruct (is_nan x).
Qed.

Lemma last_valid_float_snoc l x :
  is_nan x = false → last_valid_float (l ++ [x]) = x.
Proof.
  intros H. unfold last_valid_float.
  rewrite filter_app, filter_cons_True, filter_nil by exact H.
  now rewrite last_snoc.
Qed.

(** The cells of a row, read back column by column. *)
Lemma rates_by_column (l : list float) :
  length l = length cols → (λ j, default nan (l !! j)) <$> cols = l.
Proof.
  unfold cols. rewrite length_seq. intros H.
  apply list_eq. intros i. rewrite list_lookup_fmap.
  destruct (decide (i < 9)) as [Hi|Hi].
  - rewrite lookup_seq_lt by exact Hi. cbn.
    destruct (lookup_lt_is_Some_2 l i) as [x Hx]; [lia|]. now rewrite Hx.
  - rewrite lookup_seq_ge by lia. cbn. symmetry. apply lookup_ge_None. lia.
Qed.

Lemma agg_last_rates_length k g : length (rates (agg_last k g)) = length cols.
Proof. unfold agg_last. cbn [rates]. apply length_fmap. Qed.

(** A group of one row whose nine rate cells exist aggregates to that row. *)
Lemma agg_last_singleton k r :
  Entity r = Some k → length (rates r) = length cols → agg_last k [r] = r.
Proof.
  intros He Hl. destruct r as [e c y rs]. cbn in *. subst e.
  unfold agg_last. cbn [fmap list_fmap Code Year].
  rewrite !last_valid_singleton. f_equal.
  etransitivity; [|exact (rates_by_column rs Hl)].
  apply list_fmap_ext. intros _ j _. apply last_valid_float_singleton.
Qed.

(** A row none of whose cells is missing. *)
Definition complete (r : row) : Prop :=
  is_Some (Code r) ∧ is_Some (Year r) ∧
  length (rates r) = length cols ∧ Forall (λ x, is_nan x = false) (rates r).

(** When the last row of a group is complete, [last()] returns it as it is. *)
Lemma agg_last_snoc_complete k g r :
  Entity r = Some k → complete r → agg_last k (g ++ [r]) = r.
Proof.
  intros He ([c Hc] & [y Hy] & Hl & Hn).
  destruct r as [e c' y' rs]. cbn in *. subst e c' y'.
  unfold agg_last. rewrite !fmap_app. cbn [fmap list_fmap Code Year].
  rewrite !last_valid_snoc. f_equal.
  etransitivity; [|exact (rates_by_column rs Hl)].
  apply list_fmap_ext. intros i j Hj.
  rewrite fmap_app. cbn [fmap list_fmap]. apply last_valid_float_snoc.
  unfold rate. cbn [rates].
  apply lookup_seq in Hj as [Hj Hi]. cbn in Hj, Hi. subst j.
  destruct (lookup_lt_is_Some_2 rs i) as [x Hx]; [lia|].
  rewrite Hx. cbn. rewrite Forall_forall in Hn. apply Hn.
  now apply list_elem_of_lookup_2 in Hx.
Qed.

(** ** The grouped frame *)

Lemma elem_of_groupby o df :
  o ∈ groupby_Entity_last df ↔
  ∃ k, k ∈ group_keys df ∧ o = agg_last k (group k df).
Proof.
  unfold groupby_Entity_last. rewrite list_elem_of_fmap. split.
  - intros (k & -> & Hk). eauto.
  - intros (k & Hk & ->). eauto.
Qed.

(** Selecting one key in a frame built key by key. *)
Lemma filter_keyed (f : string → row) (ks : list string) (k : string) :
  (∀ k', Entity (f k') = Some k') → NoDup ks →
  filter (λ o, Entity o = Some k) (f <$> ks) = if decide (k ∈ ks) then [f k] else [].
Proof.
  intros Hf. induction 1 as [|k0 ks Hk0 Hn IH]; [reflexivity|].
  rewrite fmap_cons, filter_cons, IH.
  destruct (decide (Entity (f k0) = Some k)) as [E|E]; rewrite Hf in E.
  - injection E as ->.
    destruct (decide (k ∈ k :: ks)) as [_|H2]; [|destruct H2; left].
    destruct (decide (k ∈ ks)) as [H1|_]; [destruct (Hk0 H1)|reflexivity].
  - destruct (decide (k ∈ ks)) as [H1|H1], (decide (k ∈ k0 :: ks)) as [H2|H2];
      try reflexivity.
    + destruct H2. now right.
    + apply elem_of_cons in H2 as [->|H2]; [now destruct E | destruct (H1 H2)].
Qed.

Lemma groupby_select k df :
  filter (λ o, Entity o = Some k) (groupby_Entity_last df) =
  if decide (k ∈ group_keys df) then [agg_last k (group k df)] else [].
Proof.
  unfold groupby_Entity_last.
  apply (filter_keyed (λ k, agg_last k (group k df))); [reflexivity|].
  apply group_keys_NoDup.
Qed.

(** The grouped frame has the keys of the frame it was built from. *)
Lemma group_keys_groupby df : group_keys (groupby_Entity_last df) = group_keys df.
Proof.
  apply group_keys_unique; auto using group_keys_sorted, group_keys_NoDup.
  intros k. split.
  - intros Hk. exists (agg_last k (group k df)). split; [|reflexivity].
    apply elem_of_groupby. eauto.
  - intros (o & (k' & Hk' & ->)%elem_of_groupby & E). cbn in E.
    now injection E as <-.
Qed.

(** ** What [last()] returns on a group sorted by year *)

Lemma year_le_refl a : year_le a a.
Proof. destruct a; simpl; [lia|trivial]. Qed.

(** The [Year] cell is the greatest of the years the group holds. *)
Lemma agg_last_Year k g :
  StronglySorted Year_le g →
  (∀ r y, r ∈ g → Year r = Some y →
          ∃ y', Year (agg_last k g) = Some y' ∧ (y ≤ y')%Z) ∧
  (∀ y', Year (agg_last k g) = Some y' → ∃ r, r ∈ g ∧ Year r = Some y').
Proof.
  intros Hs. cbn [agg_last Year]. rewrite last_valid_fmap. split.
  - intros r y Hr Hy.
    assert (y ∈ omap Year g) as Hin by (apply list_elem_of_omap; eauto).
    destruct (StronglySorted_last Z.le _ y (sorted_years g Hs) Hin)
      as (z & Hz & Hle).
    exists z. split; [exact Hz|]. destruct Hle; [subst; reflexivity | assumption].
  - intros y' Hy'. apply last_Some_elem_of in Hy'.
    now apply list_elem_of_omap in Hy'.
Qed.

(** The [Code] cell is that of the last row, when that row has one. *)
Lemma agg_last_Code k g r c :
  Code r = Some c → Code (agg_last k (g ++ [r])) = Some c.
Proof.
  intros Hc. cbn [agg_last Code]. rewrite fmap_app. cbn [fmap list_fmap].
  rewrite Hc. apply last_valid_snoc.
Qed.

(** In a frame sorted by year, the group of an entity that occurs ends
    with a row of that entity whose year no other row of the group
    exceeds. *)
Lemma group_last d s e :
  sorted_by_Year d s → (∃ r, r ∈ d ∧ Entity r = Some e) →
  ∃ g r, group e s = g ++ [r] ∧ StronglySorted Year_le (group e s) ∧
         r ∈ d ∧ Entity r = Some e ∧
         (∀ r', r' ∈ d → Entity r' = Some e → Year_le r' r).
Proof.
  intros [Hp Hs] (r0 & Hr0 & He0).
  assert (StronglySorted Year_le (group e s)) as Hg
    by now apply StronglySorted_filter.
  assert (r0 ∈ group e s) as Hin.
  { apply list_elem_of_filter. split; [exact He0|]. now rewrite Hp. }
  destruct (StronglySorted_last Year_le _ r0 Hg Hin) as (r & Hr & _).
  pose proof (last_Some_elem_of _ _ Hr) as Hrg.
  apply list_elem_of_filter in Hrg as [He Hrs].
  apply last_Some in Hr as [g Hgr].
  exists g, r. repeat split; trivial.
  - now rewrite <- Hp.
  - intros r' Hr' He'.
    assert (r' ∈ group e s) as Hin'.
    { apply list_elem_of_filter. split; [exact He'|]. now rewrite Hp. }
    destruct (StronglySorted_last Year_le _ r' Hg Hin') as (z & Hz & Hle).
    rewrite Hgr, last_snoc in Hz. injection Hz as <-.
    destruct Hle as [->|Hle]; [apply year_le_refl | exact Hle].
Qed.

(** Rows that pass the ISO-3 test have a code. *)
Lemma is_iso3_Code r : is_iso3 r = true → ∃ c, Code r = Some c ∧ Regex.re_match Regex.iso3 c = true.
Proof.
  unfold is_iso3. destruct (Code r) as [c|]; cbn [py_str]; [eauto|].
  intros H. vm_compute in H. discriminate.
Qed.

Lemma elem_of_iso3_filter r df : r ∈ iso3_filter df ↔ r ∈ df ∧ is_iso3 r = true.
Proof. unfold iso3_filter. rewrite !list_elem_of_In. apply filter_In. Qed.

End Table.

(* ===================================================================== *)
(** * 4. The indicators and the drop of degenerate rows *)
(* ===================================================================== *)

Module Indicators.
Import Table.

#[local] Open Scope float_scope.

(** [midpoints = np.array([12, 17, 22, 27, 32, 37, 42, 47, 52])]: integers,
    converted without rounding when they multiply the float rates. *)
Definition midpoints : list float := [12; 17; 22; 27; 32; 37; 42; 47; 52].

(** [a.sum(axis=1)] on one row of a float64 array [a] of two or more
    rows.  [latest[cols].values] is the transpose of the column block, so
    the reduction along axis 1 adds the columns to the accumulator one
    after the other, from the identity 0. *)
Definition np_sum (l : list float) : float := fold_left PrimFloat.add l 0.

(** numpy's [pairwise_sum] on a contiguous run of at most 128 floats: a
    plain loop below eight elements; otherwise eight running sums, one
    per position modulo 8 over the full blocks of eight, combined two by
    two, and then the remaining elements added one by one.  (A longer run
    is split in two; the rows here have nine cells.) *)
Fixpoint add_blocks (fuel : nat) (r l : list float) : list float * list float :=
  match fuel with
  | O => (r, l)
  | S fuel' =>
      if (8 <=? List.length l)%nat
      then add_blocks fuel' (zip_with PrimFloat.add r (take 8 l)) (drop 8 l)
      else (r, l)
  end.

Definition pairwise_sum (l : list float) : float :=
  if (List.length l <? 8)%nat then fold_left PrimFloat.add l neg_zero
  else
    match add_blocks (List.length l) (take 8 l) (drop 8 l) with
    | ([r0; r1; r2; r3; r4; r5; r6; r7], rest) =>
        fold_left PrimFloat.add rest
          (((r0 + r1) + (r2 + r3)) + ((r4 + r5) + (r6 + r7)))
    | _ => nan
    end.

(** [a.sum(axis=1)] on one row of a float64 array of [nrows] rows.  A
    one-row array is contiguous along its row, and numpy then adds the
    pairwise sum of the row to the identity; with more rows the columns
    are added one after the other ([np_sum]). *)
Definition row_sum (nrows : nat) (l : list float) : float :=
  if (nrows =? 1)%nat then 0 + pairwise_sum l else np_sum l.

(** [total_rate = asfr.sum(axis=1)] *)
Definition total_rate (asfr : list float) : float := np_sum asfr.

(** [tfr = 5 * total_rate / 1000] (float64 array, two or more rows) *)
Definition tfr (asfr : list float) : float := 5 * total_rate asfr / 1000.

(** [mac = (asfr * midpoints).sum(axis=1) / total_rate] (float64 array,
    two or more rows) *)
Definition mac (asfr : list float) : float :=
  np_sum (zip_with PrimFloat.mul asfr midpoints) / total_rate asfr.

(** A row of [latest] after [assign(TFR=tfr, MAC=mac)]. *)
Record indicators : Type := mkInd {
  base : row;
  TFR : float;
  MAC : float
}.

(** Lines 36 to 38 on one row of a table of [nrows] rows; for two or more
    rows these are [total_rate], [tfr] and [mac]. *)
Definition total_rate_at (nrows : nat) (asfr : list float) : float :=
  row_sum nrows asfr.

Definition tfr_at (nrows : nat) (asfr : list float) : float :=
  5 * total_rate_at nrows asfr / 1000.

Definition mac_at (nrows : nat) (asfr : list float) : float :=
  row_sum nrows (zip_with PrimFloat.mul asfr midpoints) / total_rate_at nrows asfr.

Definition assign (latest : frame) : list indicators :=
  (λ r, {| base := r;
           TFR := tfr_at (List.length latest) (rates r);
           MAC := mac_at (List.length latest) (rates r) |}) <$> latest.

(** [latest.dropna(subset=["TFR", "MAC"])]: a row goes when one of the two
    cells is NaN.  An infinite cell is not missing for pandas. *)
Definition dropna (t : list indicators) : list indicators :=
  List.filter (λ x, negb (is_nan (TFR x)) && negb (is_nan (MAC x))) t.

(** [latest[latest["TFR"] > 0]] *)
Definition positive_TFR (t : list indicators) : list indicators :=
  List.filter (λ x, 0 <? TFR x) t.

(** Lines 42 to 44. *)
Definition drop_step (t : list indicators) : list indicators :=
  positive_TFR (dropna t).

(** Lines 27 to 44: from the raw frame to the rows that are plotted, on a
    frame with at least one row. *)
Definition retained (df : frame) : list indicators :=
  drop_step (assign (filter_step df)).

(** Lines 27 to 44 as they run: the exception of line 31 ends the
    script. *)
Definition run_retained (df : frame) : outcome (list indicators) :=
  match run_filter_step df with
  | returned latest => returned (drop_step (assign latest))
  | raised e => raised e
  end.

(** [latest["Region"] = latest["Code"].apply(get_region)].  A missing code
    is in none of the sets. *)
Definition Region (x : indicators) : string :=
  match Code (base x) with
  | Some c => Regions.get_region c
  | None => "Asia & Middle East"
  end.

(** The example row of the specification. *)
Definition example_rates : list float := [0; 0; 50; 100; 80; 30; 5; 0; 0].

End Indicators.

(* ===================================================================== *)
(** * 4b. The formulas of the docstring, in exact arithmetic *)
(* ===================================================================== *)

Module Exact.
Import QArith.QArith_base.
#[local] Open Scope Q_scope.

(** The rational number a finite float stands for (0 for NaN and the
    infinities, which stand for none). *)
Definition Q_of_float (x : float) : Q :=
  match Prim2SF x with
  | S754_finite s m e =>
      let n := if s then Zneg m else Zpos m in
      match e with
      | Z0 => inject_Z n
      | Zpos p => inject_Z (n * 2 ^ Zpos p)
      | Zneg p => Qmake n (2 ^ p)
      end
  | _ => 0
  end.

Definition sum (rs : list Q) : Q := fold_right Qplus 0 rs.

Definition midpoints : list Q := [12; 17; 22; 27; 32; 37; 42; 47; 52].

(** [TFR = 5 * sum(ASFR_i) / 1000] *)
Definition TFR (rs : list Q) : Q := 5 * sum rs / 1000.

(** [MAC = sum(ASFR_i * midpoint_i) / sum(ASFR_i)] *)
Definition MAC (rs : list Q) : Q := sum (zip_with Qmult rs midpoints) / sum rs.

Definition eqb (a b : Q) : bool := Qeq_bool a b.
Definition leb (a b : Q) : bool := Qle_bool a b.

End Exact.

(* ===================================================================== *)
(** * 4c. Lines 36 to 38 on integer columns *)
(* ===================================================================== *)

(** When all nine rate columns of the CSV hold integers, pandas reads
    them as int64 and [latest[cols].values] is an int64 array: the sums
    and products of lines 36 to 38 are then taken in 64-bit integers,
    which wrap around, and only the two divisions are done on floats.
    (With at least one float64 column the array is float64: that is a
    frame of [Table.row]s.) *)
Module Int64.

Definition wrap (z : Z) : Z := ((z + 2 ^ 63) mod 2 ^ 64 - 2 ^ 63)%Z.

(** The float64 nearest to an int64 (ties to even), as the true division
    converts its operands. *)
Definition to_float (z : Z) : float :=
  SF2Prim (binary_normalize prec emax z 0 false).

Definition midpoints : list Z := [12; 17; 22; 27; 32; 37; 42; 47; 52]%Z.

Definition sum (l : list Z) : Z := fold_left (λ a x, wrap (a + x)) l 0%Z.

Definition total_rate (asfr : list Z) : Z := sum asfr.

Definition tfr (asfr : list Z) : float :=
  (to_float (wrap (5 * total_rate asfr)) / 1000)%float.

Definition mac (asfr : list Z) : float :=
  (to_float (sum (zip_with (λ r m, wrap (r * m)) asfr midpoints))
   / to_float (total_rate asfr))%float.

End Int64.

(* ===================================================================== *)
(** * 5. Properties of the filter step *)
(* ===================================================================== *)

Import Table.

(** A country that the source data lists under two names with one code. *)
Definition renamed : frame :=
  [ mkRow (Some "Czech Republic") (Some "CZE") (Some 2015%Z)
      [0; 11; 48; 97; 93; 38; 7; 0; 0]%float;
    mkRow (Some "Czechia") (Some "CZE") (Some 2021%Z)
      [0; 9; 40; 92; 105; 48; 10; 1; 0]%float ].

(** A frame in year order whose selection comes out in entity order. *)
Definition sample : frame :=
  [ mkRow (Some "Spain") (Some "ESP") (Some 2019%Z)
      [0; 6; 24; 58; 98; 62; 14; 1; 0]%float;
    mkRow (Some "Spain") (Some "ESP") (Some 2021%Z)
      [0; 5; 22; 55; 95; 64; 16; 1; 0]%float;
    mkRow (Some "Albania") (Some "ALB") (Some 2022%Z)
      [0; 12; 70; 105; 68; 27; 5; 0; 0]%float ].

(** The selection read with [Code] as the grouping key: every code of the
    filtered input has one output row, whose year no input row of that
    code exceeds. *)
Definition one_row_per_Code (df out : frame) : Prop :=
  ∀ c, (∃ r, r ∈ iso3_filter df ∧ Code r = Some c) →
       ∃ o, filter (λ o, Code o = Some c) out = [o] ∧
            ∀ r, r ∈ iso3_filter df → Code r = Some c → Year_le r o.

(** C1, as stated, fails: the groups are formed on [Entity], so two
    entities that share a code both stay, and the code has two rows. *)
Lemma one_row_per_Code_fails : ¬ one_row_per_Code renamed (filter_step renamed).
Proof.
  intros H. destruct (H "CZE") as (o & Ho & _).
  - exists (mkRow (Some "Czechia") (Some "CZE") (Some 2021%Z)
              [0; 9; 40; 92; 105; 48; 10; 1; 0]%float).
    split; [|reflexivity]. apply elem_of_iso3_filter.
    split; [|reflexivity]. right. left.
  - vm_compute in Ho. discriminate Ho.
Qed.

(** C1, amended: the filter step outputs exactly one row per entity of the
    filtered input.  Every output row carries an entity of the input; and
    for every entity [e] of the filtered input the output has one row [o]
    with that entity.  The [Year] of [o] is the greatest year that the
    rows of [e] give.  The [Code] of [o] is the code of the last row [r]
    of [e] in the order of the sort: ascending year, the rows without a
    year last, so that no row of [e] comes after [r].  When [r] has a
    year, as it has when every row of [e] has one, every row of [e] has
    a year, none a later one, and [o] has the year of [r].  And [o] is
    [r] itself when no cell of [r] is missing.  This holds whatever
    order the sort gives to rows of equal year. *)
Theorem filter_step_one_row_per_Entity (df s : frame) :
  sorted_by_Year (iso3_filter df) s →
  (∀ o, o ∈ groupby_Entity_last s →
        ∃ e r, Entity o = Some e ∧ r ∈ iso3_filter df ∧ Entity r = Some e) ∧
  (∀ e, (∃ r, r ∈ iso3_filter df ∧ Entity r = Some e) →
        ∃ o, filter (λ o, Entity o = Some e) (groupby_Entity_last s) = [o] ∧
             (∀ r y, r ∈ iso3_filter df → Entity r = Some e → Year r = Some y →
                     ∃ y', Year o = Some y' ∧ (y ≤ y')%Z) ∧
             (∀ y', Year o = Some y' →
                    ∃ r, r ∈ iso3_filter df ∧ Entity r = Some e ∧ Year r = Some y') ∧
             (∃ r, r ∈ iso3_filter df ∧ Entity r = Some e ∧
                   last (group e s) = Some r ∧
                   (∀ r', r' ∈ iso3_filter df → Entity r' = Some e → Year_le r' r) ∧
                   Code o = Code r ∧
                   (∀ y, Year r = Some y →
                         Year o = Some y ∧
                         ∀ r', r' ∈ iso3_filter df → Entity r' = Some e →
                               ∃ y', Year r' = Some y' ∧ (y' ≤ y)%Z) ∧
                   ((∀ r', r' ∈ iso3_filter df → Entity r' = Some e →
                           is_Some (Year r')) →
                    Year o = Year r) ∧
                   (complete r → o = r))).
Proof.
  intros Hsort. pose proof Hsort as [Hp Hs]. split.
  - intros o (k & Hk & ->)%elem_of_groupby.
    apply elem_of_group_keys in Hk as (r & Hr & He).
    exists k, r. rewrite <- Hp. auto.
  - intros e Hex.
    destruct (group_last _ _ _ Hsort Hex) as (g & r & Hg & Hgs & Hr & He & Hmax).
    assert (∀ y, Year r = Some y → Year (agg_last e (group e s)) = Some y)
      as HY.
    { intros y Hy. rewrite Hg. cbn [agg_last Year]. rewrite fmap_app.
      cbn [fmap list_fmap]. rewrite Hy. apply last_valid_snoc. }
    exists (agg_last e (group e s)). split; [|split; [|split]].
    + rewrite groupby_select. apply decide_True.
      apply elem_of_group_keys. exists r. split; [now rewrite Hp | exact He].
    + intros r' y Hr' He' Hy.
      apply (proj1 (agg_last_Year e _ Hgs) r' y); [|exact Hy].
      apply list_elem_of_filter. split; [exact He' | now rewrite Hp].
    + intros y' Hy'.
      destruct (proj2 (agg_last_Year e _ Hgs) y' Hy') as (r' & Hr' & Hy).
      apply list_elem_of_filter in Hr' as [He' Hr'].
      exists r'. rewrite <- Hp. auto.
    + exists r. split; [exact Hr|]. split; [exact He|].
      split; [rewrite Hg; apply last_snoc|]. split; [exact Hmax|].
      split; [|split; [|split]].
      * apply elem_of_iso3_filter in Hr as [_ Hiso].
        destruct (is_iso3_Code r Hiso) as (c & Hc & _).
        rewrite Hg, Hc. now apply agg_last_Code.
      * intros y Hy. split; [now apply HY|].
        intros r' Hr' He'. pose proof (Hmax r' Hr' He') as Hle.
        unfold Year_le in Hle. rewrite Hy in Hle.
        destruct (Year r') as [y'|]; [|contradiction].
        exists y'. split; [reflexivity | exact Hle].
      * intros Hall. destruct (Hall r Hr He) as [y Hy].
        rewrite Hy. now apply HY.
      * intros Hc. rewrite Hg. now apply agg_last_snoc_complete.
Qed.

(** The frame [renamed] is in year order already: each of its two names
    has its own row in the output, with the year and the code of its
    last row. *)
Lemma filter_step_one_row_per_Entity_witness :
  sorted_by_Year (iso3_filter renamed) renamed ∧
  ∃ o, filter (λ o, Entity o = Some "Czechia") (groupby_Entity_last renamed) = [o] ∧
       ∃ r, last (group "Czechia" renamed) = Some r ∧ Code o = Code r ∧
            (complete r → o = r).
Proof.
  assert (sorted_by_Year (iso3_filter renamed) renamed) as H.
  { split; [reflexivity|]. unfold renamed.
    repeat constructor; unfold Year_le; simpl; lia. }
  split; [exact H|].
  destruct (proj2 (filter_step_one_row_per_Entity renamed renamed H) "Czechia")
    as (o & Ho & _ & _ & r & _ & _ & Hl & _ & Hc & _ & _ & Hcomp).
  - exists (mkRow (Some "Czechia") (Some "CZE") (Some 2021%Z)
              [0; 9; 40; 92; 105; 48; 10; 1; 0]%float).
    split; [|reflexivity]. right. left.
  - exists o. split; [exact Ho|]. exists r. auto.
Defined.

(** C7: the latest-year selection is idempotent.  Sorting the selected
    table by year again, in whatever order the sort leaves equal years,
    and keeping the last row of each group gives the selected table back:
    same rows, same order. *)
Theorem latest_idempotent (df s1 s2 : frame) :
  sorted_by_Year df s1 →
  sorted_by_Year (groupby_Entity_last s1) s2 →
  groupby_Entity_last s2 = groupby_Entity_last s1.
Proof.
  intros _ [Hp _].
  unfold groupby_Entity_last at 1.
  rewrite (group_keys_Permutation _ _ Hp), group_keys_groupby.
  unfold groupby_Entity_last at 1.
  apply list_fmap_ext. intros i k Hk.
  apply list_elem_of_lookup_2 in Hk.
  assert (group k s2 = [agg_last k (group k s1)]) as ->.
  { apply Permutation_singleton_r. unfold group. rewrite Hp.
    fold (group k (groupby_Entity_last s1)).
    unfold group at 1. rewrite groupby_select. now rewrite decide_True. }
  apply agg_last_singleton; [reflexivity | apply agg_last_rates_length].
Qed.

(** The selection of [sample] is in entity order; reversed, it is in year
    order. *)
Lemma latest_idempotent_witness :
  groupby_Entity_last (rev (groupby_Entity_last sample)) =
  groupby_Entity_last sample.
Proof.
  apply (latest_idempotent sample sample).
  - split; [reflexivity|]. unfold sample.
    repeat constructor; unfold Year_le; simpl; lia.
  - split; [symmetry; apply Permutation_rev|].
    apply (bool_decide_unpack _). vm_compute. exact I.
Defined.

(** With the sort the pipeline is run with, the selection applied twice is
    the selection applied once. *)
Corollary latest_of_idempotent (df : frame) : latest_of (latest_of df) = latest_of df.
Proof.
  unfold latest_of at 1 3.
  apply (latest_idempotent df); apply sort_values_Year_spec.
Qed.

(** C8: a row whose code does not match the pattern is not in the
    filtered frame; the filter is a total function that only removes rows
    (what it returns is a sublist of its input, and it keeps every row
    that matches); and no row of the table the filter step ends with
    carries a code that fails the pattern. *)
Theorem iso3_filter_only_removes (df : frame) :
  (∀ r, Regex.re_match Regex.iso3 (py_str (Code r)) = false → r ∉ iso3_filter df) ∧
  (∀ r, r ∈ df → Regex.re_match Regex.iso3 (py_str (Code r)) = true → r ∈ iso3_filter df) ∧
  iso3_filter df `sublist_of` df ∧
  (∀ o, o ∈ filter_step df →
        ∃ c, Code o = Some c ∧ Regex.re_match Regex.iso3 c = true).
Proof.
  repeat split.
  - intros r Hr [_ H]%elem_of_iso3_filter. unfold is_iso3 in H. congruence.
  - intros r Hr H. apply elem_of_iso3_filter. auto.
  - unfold iso3_filter. induction df as [|r df IH]; [constructor|].
    simpl. destruct (is_iso3 r); now constructor.
  - intros o (k & Hk & ->)%elem_of_groupby.
    pose proof (sort_values_Year_spec (iso3_filter df)) as Hsort.
    apply elem_of_group_keys in Hk as (r0 & Hr0 & He0).
    destruct (group_last (iso3_filter df) _ k Hsort) as (g & r & Hg & _ & Hr & _).
    { exists r0. split; [|exact He0]. now rewrite <- (proj1 Hsort). }
    apply elem_of_iso3_filter in Hr as [_ Hiso].
    destruct (is_iso3_Code r Hiso) as (c & Hc & Hm).
    exists c. split; [|exact Hm]. rewrite Hg. now apply agg_last_Code.
Qed.

(** C10: a row whose [Code] cell is missing is excluded without error:
    [str] turns the cell into the text [nan], which the pattern rejects. *)
Theorem missing_Code_excluded (df : frame) (r : row) :
  Code r = None →
  py_str (Code r) = "nan" ∧
  Regex.re_match Regex.iso3 (py_str (Code r)) = false ∧
  r ∉ iso3_filter df.
Proof.
  intros H. rewrite H. repeat split.
  intros [_ Hiso]%elem_of_iso3_filter. unfold is_iso3 in Hiso.
  rewrite H in Hiso. discriminate Hiso.
Qed.

Lemma missing_Code_excluded_witness :
  let r := mkRow (Some "World") None (Some 2021%Z) [0; 9; 40; 92; 105; 48; 10; 1; 0]%float in
  r ∉ iso3_filter (r :: renamed).
Proof.
  intros r. apply (missing_Code_excluded (r :: renamed) r). reflexivity.
Defined.

(* ===================================================================== *)
(** * 6. Properties of the indicators *)
(* ===================================================================== *)

Import Indicators.

Section indicators.
#[local] Open Scope float_scope.

(** The example row of the specification: total 265 and TFR 1.325, on a
    table of several rows, on a table of one row and on integer columns. *)
Example TFR_example :
  total_rate example_rates = 265 ∧ tfr example_rates = 1.325 ∧
  total_rate_at 1 example_rates = 265 ∧ tfr_at 1 example_rates = 1.325 ∧
  Int64.total_rate [0; 0; 50; 100; 80; 30; 5; 0; 0]%Z = 265%Z ∧
  Int64.tfr [0; 0; 50; 100; 80; 30; 5; 0; 0]%Z = 1.325.
Proof. repeat split. Qed.

(** The order of the additions shows in the result: on these rates the
    columns added one after the other give 0, the pairwise sum of a
    one-row table gives 1. *)
Example summation_order_matters :
  let rs := [1; 0; 1e16; -1e16; 0; 0; 0; 0; 0] in
  total_rate rs = 0 ∧ tfr rs = 0 ∧
  total_rate_at 1 rs = 1 ∧ tfr_at 1 rs = 0.005 ∧ is_nan (mac_at 1 rs) = false.
Proof. repeat split. Qed.

(** Nine float rates of which the last is 1e308: their sum is a float,
    five times their sum is not. *)
Definition overflowing_total : list float := [0; 0; 0; 0; 0; 0; 0; 0; 1e308].

(** Nine integer rates of which the last is 4e18: their sum is an int64,
    five times their sum and 52 times the last are not. *)
Definition wrapping : list Z := [0; 0; 0; 0; 0; 0; 0; 0; 4000000000000000000]%Z.

(** C2 on the code: two rows on which the code's TFR is not 5 × sum / 1000.
    For the float rates [overflowing_total] it is +infinity, on a table
    of several rows and on a table of one row, because [5 * total_rate]
    overflows before the division by 1000, while the formula gives a
    two-hundredth of the last rate, 5e305, far inside the range of
    binary64.  For the integer rates [wrapping] the product
    [5 * total_rate] wraps around in int64 and the code's TFR is
    1553255926290448.5, while the formula gives 2e16. *)
Theorem TFR_departs_from_formula :
  tfr overflowing_total = infinity ∧
  tfr_at 1 overflowing_total = infinity ∧
  Exact.eqb (Exact.TFR (Exact.Q_of_float <$> overflowing_total))
            (QArith_base.Qdiv (Exact.Q_of_float 1e308) (QArith_base.inject_Z 200)) = true ∧
  Exact.leb (Exact.TFR (Exact.Q_of_float <$> overflowing_total))
            (Exact.Q_of_float 5.1e305) = true ∧
  Int64.tfr wrapping = 1553255926290448.5 ∧
  Exact.eqb (Exact.TFR (QArith_base.inject_Z <$> wrapping))
            (QArith_base.inject_Z 20000000000000000) = true.
Proof. repeat split; vm_compute; reflexivity. Qed.

(** The rates of the frame [overflowing] below. *)
Definition overflowing_rates : list float := [0; 0; 0; 0; 0; 0; 0; 0; 1e307].

(** C3 on the code: two rows of non-zero total on which the code's MAC is
    not the rate-weighted average of the midpoints.  For the float rates
    [overflowing_rates] it is +infinity, on a table of several rows and
    on a table of one row, because the product 1e307 × 52 overflows; for
    the integer rates [wrapping] the product 4e18 × 52 wraps around in
    int64 and the code's MAC is 1.27.  On both rows the weighted average
    is 52, the only midpoint with a non-zero rate. *)
Theorem MAC_departs_from_formula :
  (total_rate overflowing_rates =? 0) = false ∧
  mac overflowing_rates = infinity ∧
  (total_rate_at 1 overflowing_rates =? 0) = false ∧
  mac_at 1 overflowing_rates = infinity ∧
  Exact.eqb (Exact.MAC (Exact.Q_of_float <$> overflowing_rates))
            (QArith_base.inject_Z 52) = true ∧
  Int64.total_rate wrapping = 4000000000000000000%Z ∧
  Int64.mac wrapping = 1.271453797298733 ∧
  Exact.eqb (Exact.MAC (QArith_base.inject_Z <$> wrapping))
            (QArith_base.inject_Z 52) = true.
Proof. repeat split; vm_compute; reflexivity. Qed.

(** On the example row the three ways of computing agree. *)
Example example_MAC_all_paths :
  mac_at 1 example_rates = mac example_rates ∧
  Int64.mac [0; 0; 50; 100; 80; 30; 5; 0; 0]%Z = mac example_rates.
Proof. repeat split. Qed.

(** A value quoted with two decimals: the float is within half a unit of
    the last decimal. *)
Definition agrees_to_2_decimals (x v : float) : bool := abs (x - v) <=? 0.005.

(** C4, as stated, fails: the quotient is 7680/265, which is 28.98 and not
    28.75; the two are 0.23 apart. *)
Lemma MAC_example_is_not_28_75 :
  ¬ (mac example_rates = (22 * 50 + 27 * 100 + 32 * 80 + 37 * 30 + 42 * 5) / 265 ∧
     agrees_to_2_decimals (mac example_rates) 28.75 = true).
Proof. intros [_ H]. vm_compute in H. discriminate H. Qed.

(** C4, amended: for the example row the MAC equals
    (22×50 + 27×100 + 32×80 + 37×30 + 42×5) / 265 = 7680 / 265, which is
    approximately 28.98. *)
Theorem MAC_example :
  mac example_rates = (22 * 50 + 27 * 100 + 32 * 80 + 37 * 30 + 42 * 5) / 265 ∧
  mac example_rates = 7680 / 265 ∧
  agrees_to_2_decimals (mac example_rates) 28.98 = true ∧
  (0.23 <? mac example_rates - 28.75) = true.
Proof. repeat split. Qed.

(** ** The drop step *)

Lemma elem_of_drop_step t x :
  x ∈ drop_step t ↔
  x ∈ t ∧ is_nan (TFR x) = false ∧ is_nan (MAC x) = false ∧ (0 <? TFR x) = true.
Proof.
  unfold drop_step, positive_TFR, dropna.
  rewrite !list_elem_of_In, !filter_In, andb_true_iff, !negb_true_iff. tauto.
Qed.

(** A float that compares equal to 0 is one of the two zeros. *)
Lemma eqb_zero x : (x =? 0) = true → x = 0 ∨ x = -0.
Proof.
  rewrite FloatAxioms.eqb_spec. change (Prim2SF 0) with (S754_zero false).
  intros H. destruct (Prim2SF x) as [s|s| |s m e] eqn:E.
  - destruct s; [right|left]; now apply Prim2SF_inj.
  - destruct s; discriminate H.
  - discriminate H.
  - destruct s; discriminate H.
Qed.

(** Rows whose rates sum to zero, as the code sums them, do not survive
    the drop step. *)
Lemma zero_total_dropped latest x :
  x ∈ drop_step (assign latest) →
  (total_rate_at (List.length latest) (rates (base x)) =? 0) = false.
Proof.
  intros (Hx & _ & _ & Hpos)%elem_of_drop_step.
  apply list_elem_of_fmap in Hx as (r & -> & _). cbn [TFR base] in *.
  destruct (total_rate_at (List.length latest) (rates r) =? 0) eqn:E;
    [|reflexivity].
  unfold tfr_at in Hpos.
  apply eqb_zero in E as [E|E]; rewrite E in Hpos; vm_compute in Hpos;
    discriminate Hpos.
Qed.

(** A row whose last rate is so large that its product with the midpoint
    52 exceeds the largest float. *)
Definition overflowing : frame :=
  [ mkRow (Some "Atlantis") (Some "ATL") (Some 2023%Z)
      [0; 0; 0; 0; 0; 0; 0; 0; 1e307] ].

(** C5 on the code: the row of [overflowing] passes [dropna] and the test
    [TFR > 0] and is retained with an infinite MAC. *)
Theorem infinite_MAC_retained :
  ∃ x, retained overflowing = [x] ∧
       (0 <? TFR x) = true ∧ is_nan (MAC x) = false ∧
       MAC x = infinity ∧ is_finite (MAC x) = false.
Proof. eexists. repeat split. Qed.

End indicators.

(* ===================================================================== *)
(** * 7. Properties of the region classifier *)
(* ===================================================================== *)

Import Regions.

(** C6: [get_region] is a total function from code strings to the five
    labels, which are distinct; the label is decided by the membership
    tests in the order Africa, Europe, Americas, Oceania, with
    "Asia & Middle East" when no test succeeds; "FRA" is in Europe, "NGA"
    in Africa, and "XYZ", which no set holds, in "Asia & Middle East". *)
Theorem get_region_total :
  NoDup labels ∧
  (∀ code : string,
     get_region code ∈ labels ∧
     (code ∈ africa → get_region code = "Africa") ∧
     (code ∉ africa → code ∈ europe → get_region code = "Europe") ∧
     (code ∉ africa → code ∉ europe → code ∈ americas →
      get_region code = "Americas") ∧
     (code ∉ africa → code ∉ europe → code ∉ americas → code ∈ oceania →
      get_region code = "Oceania") ∧
     (code ∉ africa → code ∉ europe → code ∉ americas → code ∉ oceania →
      get_region code = "Asia & Middle East")) ∧
  get_region "FRA" = "Europe" ∧
  get_region "NGA" = "Africa" ∧
  get_region "XYZ" = "Asia & Middle East".
Proof.
  split; [|split; [|repeat split; vm_compute; reflexivity]].
  - apply (bool_decide_unpack _). vm_compute. exact I.
  - intros code. unfold get_region, labels.
    destruct (decide (code ∈ africa)), (decide (code ∈ europe)),
      (decide (code ∈ americas)), (decide (code ∈ oceania));
      (split; [repeat first [apply list_elem_of_here | apply list_elem_of_further]|]);
      repeat split; intros; first [reflexivity | contradiction].
Qed.

(** ** Order of the tests *)

(** What [classify] answers: the label of a test that succeeds, or the
    fallback when none does. *)
Lemma classify_cases ts code :
  (∃ set label, (set, label) ∈ ts ∧ code ∈ set ∧ classify ts code = label) ∨
  ((∀ set label, (set, label) ∈ ts → code ∉ set) ∧
   classify ts code = "Asia & Middle East").
Proof.
  induction ts as [|[set label] ts IH]; simpl.
  - right. split; [|reflexivity]. intros set label H. inversion H.
  - destruct (decide (code ∈ set)) as [Hin|Hout].
    + left. exists set, label. repeat split; [left | exact Hin].
    + destruct IH as [(set' & label' & H1 & H2 & H3) | [H1 H2]].
      * left. exists set', label'. repeat split; [now right | exact H2 | exact H3].
      * right. split; [|exact H2].
        intros set' label' [E|H]%elem_of_cons; [|now apply (H1 _ label')].
        now injection E as -> ->.
Qed.

(** Tests that never disagree on a code. *)
Definition consistent (ts : list (gset string * string)) : Prop :=
  ∀ code set1 label1 set2 label2,
    (set1, label1) ∈ ts → (set2, label2) ∈ ts →
    code ∈ set1 → code ∈ set2 → label1 = label2.

Lemma classify_Permutation ts1 ts2 code :
  consistent ts1 → ts2 ≡ₚ ts1 → classify ts2 code = classify ts1 code.
Proof.
  intros Hc Hp.
  destruct (classify_cases ts1 code) as [(s1 & l1 & Hi1 & Hm1 & ->) | [Hn1 ->]];
    destruct (classify_cases ts2 code) as [(s2 & l2 & Hi2 & Hm2 & ->) | [Hn2 ->]];
    trivial.
  - rewrite Hp in Hi2. exact (Hc code _ _ _ _ Hi2 Hi1 Hm2 Hm1).
  - rewrite <- Hp in Hi1. destruct (Hn2 _ _ Hi1 Hm1).
  - rewrite Hp in Hi2. destruct (Hn1 _ _ Hi2 Hm2).
Qed.

Lemma tests_consistent : consistent tests.
Proof.
  pose proof africa_europe as D1. pose proof africa_americas as D2.
  pose proof africa_oceania as D3. pose proof europe_americas as D4.
  pose proof europe_oceania as D5. pose proof americas_oceania as D6.
  unfold consistent, tests. intros code set1 label1 set2 label2 I1 I2 M1 M2.
  repeat (apply elem_of_cons in I1 as [I1|I1]); [..|inversion I1];
    repeat (apply elem_of_cons in I2 as [I2|I2]); try (inversion I2; fail);
    injection I1 as -> ->; injection I2 as -> ->; try reflexivity;
    exfalso;
    match goal with
    | D : ?X ## ?Y, A : code ∈ ?X, B : code ∈ ?Y |- _ => exact (D code A B)
    end.
Qed.

(** C9: the four sets are pairwise disjoint, so the classifier does not
    depend on the order of its tests: run in any order ([ts] is any
    rearrangement of the four tests), they give the label that
    [get_region] gives. *)
Theorem region_order_irrelevant :
  (africa ## europe ∧ africa ## americas ∧ africa ## oceania ∧
   europe ## americas ∧ europe ## oceania ∧ americas ## oceania) ∧
  (∀ ts code, ts ≡ₚ tests → classify ts code = get_region code).
Proof.
  split.
  - auto 10 using africa_europe, africa_americas, africa_oceania,
      europe_americas, europe_oceania, americas_oceania.
  - intros ts code Hp. rewrite get_region_classify.
    apply classify_Permutation; [apply tests_consistent | exact Hp].
Qed.

Example classify_reversed : classify (rev tests) "FJI" = get_region "FJI".
Proof. vm_compute. reflexivity. Qed.

(* ===================================================================== *)
(** * 8. Further properties of the filter step *)
(* ===================================================================== *)

(** X1: a row passes the ISO-3 test exactly when its [Code] cell holds
    three capital letters, or three capital letters and one final
    newline ([$] matches before it); a missing code never passes. *)
Theorem is_iso3_iff (r : row) :
  is_iso3 r = true ↔
  ∃ a b c, Regex.is_upper a = true ∧ Regex.is_upper b = true ∧
           Regex.is_upper c = true ∧
           (Code r = Some (Regex.str3 a b c) ∨
            Code r = Some (Regex.str3 a b c ++ Regex.newline)%string).
Proof.
  unfold is_iso3. destruct (Code r) as [s|]; cbn [py_str].
  - rewrite Regex.iso3_match_iff. split.
    + intros (a & b & c & Ha & Hb & Hc & [->| ->]); exists a, b, c; auto.
    + intros (a & b & c & Ha & Hb & Hc & [E|E]); injection E as ->;
        exists a, b, c; auto.
  - split; [intros H; vm_compute in H; discriminate H|].
    intros (a & b & c & _ & _ & _ & [E|E]); discriminate E.
Qed.

(** ** Rows without an entity *)

Lemma omap_Entity_filter (s : frame) :
  omap Entity (filter (λ r, is_Some (Entity r)) s) = omap Entity s.
Proof.
  unfold frame in *. induction s as [|r s IH]; [reflexivity|].
  rewrite filter_cons. destruct (decide (is_Some (Entity r))) as [H|H].
  - cbn. now rewrite IH.
  - rewrite IH. cbn. destruct (Entity r) as [e|]; [|reflexivity].
    destruct H. eauto.
Qed.

Lemma group_filter_Entity k (s : frame) :
  group k (filter (λ r, is_Some (Entity r)) s) = group k s.
Proof.
  unfold group, frame in *. induction s as [|r s IH]; [reflexivity|].
  rewrite (filter_cons (λ r, is_Some (Entity r))), (filter_cons _ r s).
  destruct (decide (is_Some (Entity r))) as [H|H].
  - rewrite filter_cons. now rewrite IH.
  - rewrite IH. rewrite decide_False; [reflexivity|].
    intros E. apply H. rewrite E. eauto.
Qed.

(** X2: rows whose [Entity] cell is missing belong to no group
    ([dropna=True]): removing them beforehand changes nothing in the
    selected table. *)
Theorem rows_without_Entity_ignored (s : frame) :
  groupby_Entity_last (filter (λ r, is_Some (Entity r)) s) = groupby_Entity_last s.
Proof.
  unfold groupby_Entity_last, group_keys. rewrite omap_Entity_filter.
  apply list_fmap_ext. intros i k _. now rewrite group_filter_Entity.
Qed.

(** ** Cells of the selected row *)

Lemma filter_fmap_rate (j : nat) (g : frame) :
  filter (λ x, is_nan x = false) (rate j <$> g) =
  rate j <$> filter (λ r, is_nan (rate j r) = false) g.
Proof.
  unfold frame in *. induction g as [|r g IH]; [reflexivity|].
  rewrite fmap_cons, !filter_cons, IH.
  destruct (decide (is_nan (rate j r) = false)); reflexivity.
Qed.

Lemma rate_agg_last k g j :
  j < length cols → rate j (agg_last k g) = last_valid_float (rate j <$> g).
Proof.
  intros Hj. unfold rate at 1, agg_last. cbn [rates].
  rewrite list_lookup_fmap. unfold cols in *. rewrite length_seq in Hj.
  rewrite lookup_seq_lt by exact Hj. reflexivity.
Qed.

(** X3: [last()] works column by column, on the frame in the order of
    [sort_values("Year")]: ascending year, the rows without a year last.
    The cell of rate column [j] in the selected row of entity [e] is
    missing when it is missing in every row of [e]; otherwise it is the
    cell of the last row of [e], in that order, in which the cell is not
    missing.  No row of [e] that has the cell comes after that row: when
    the row has a year, every such row has a year and none a later one;
    a row without a year comes after all rows that have one. *)
Theorem latest_cell_is_last_available (d s : frame) (e : string) (j : nat) :
  sorted_by_Year d s → j < length cols →
  ((∀ r, r ∈ d → Entity r = Some e → is_nan (rate j r) = true) →
   rate j (agg_last e (group e s)) = nan) ∧
  ((∃ r, r ∈ d ∧ Entity r = Some e ∧ is_nan (rate j r) = false) →
   ∃ r, r ∈ d ∧ Entity r = Some e ∧ is_nan (rate j r) = false ∧
        last (filter (λ r, is_nan (rate j r) = false) (group e s)) = Some r ∧
        rate j (agg_last e (group e s)) = rate j r ∧
        (∀ r', r' ∈ d → Entity r' = Some e → is_nan (rate j r') = false →
               Year_le r' r) ∧
        (∀ y, Year r = Some y →
              ∀ r', r' ∈ d → Entity r' = Some e → is_nan (rate j r') = false →
                    ∃ y', Year r' = Some y' ∧ (y' ≤ y)%Z)).
Proof.
  intros [Hp Hs] Hj. rewrite rate_agg_last by exact Hj.
  unfold last_valid_float. rewrite filter_fmap_rate, fmap_last.
  set (g := filter (λ r, is_nan (rate j r) = false) (group e s)).
  assert (StronglySorted Year_le g) as Hg
    by (unfold g, group; now do 2 apply StronglySorted_filter).
  assert (∀ r, r ∈ g ↔ r ∈ d ∧ Entity r = Some e ∧ is_nan (rate j r) = false)
    as Hing.
  { intros r. unfold g, group. rewrite !list_elem_of_filter, Hp. tauto. }
  split.
  - intros Hall. destruct (last g) as [r|] eqn:Hl; [|reflexivity].
    apply last_Some_elem_of, Hing in Hl as (Hr & He & Hn).
    rewrite (Hall r Hr He) in Hn. discriminate Hn.
  - intros (r0 & Hr0 & He0 & Hn0).
    assert (r0 ∈ g) as Hin by (apply Hing; auto).
    destruct (StronglySorted_last Year_le _ r0 Hg Hin) as (r & Hr & _).
    rewrite Hr. cbn.
    pose proof (last_Some_elem_of _ _ Hr) as Hrg. apply Hing in Hrg as (H1 & H2 & H3).
    assert (∀ r', r' ∈ d → Entity r' = Some e → is_nan (rate j r') = false →
                  Year_le r' r) as Hmax.
    { intros r' Hr' He' Hn'.
      assert (r' ∈ g) as Hin' by (apply Hing; auto).
      destruct (StronglySorted_last Year_le _ r' Hg Hin') as (z & Hz & Hle).
      rewrite Hr in Hz. injection Hz as <-.
      destruct Hle as [->|Hle]; [apply year_le_refl | exact Hle]. }
    exists r. repeat split; trivial.
    intros y Hy r' Hr' He' Hn'.
    pose proof (Hmax r' Hr' He' Hn') as Hle. unfold Year_le in Hle.
    rewrite Hy in Hle. destruct (Year r') as [y'|]; [|contradiction].
    exists y'. split; [reflexivity | exact Hle].
Qed.

(** Two years of one country; the later year lacks the second rate. *)
Definition gappy : frame :=
  [ mkRow (Some "France") (Some "FRA") (Some 2022%Z)
      [0; 4; 25; 70; 110; 60; 15; 1; 0]%float;
    mkRow (Some "France") (Some "FRA") (Some 2023%Z)
      [0; nan; 24; 68; 108; 61; 16; 1; 0]%float ].

(** On [gappy] the selected row takes the year 2023 and the second rate
    of 2022: it is a row of neither year. *)
Lemma latest_cell_is_last_available_witness :
  ∃ r, r ∈ gappy ∧ Entity r = Some "France" ∧ is_nan (rate 1 r) = false ∧
       last (filter (λ r, is_nan (rate 1 r) = false) (group "France" gappy)) = Some r ∧
       rate 1 (agg_last "France" (group "France" gappy)) = rate 1 r ∧
       (∀ r', r' ∈ gappy → Entity r' = Some "France" →
              is_nan (rate 1 r') = false → Year_le r' r) ∧
       (∀ y, Year r = Some y →
             ∀ r', r' ∈ gappy → Entity r' = Some "France" →
                   is_nan (rate 1 r') = false →
                   ∃ y', Year r' = Some y' ∧ (y' ≤ y)%Z).
Proof.
  assert (sorted_by_Year gappy gappy) as H.
  { split; [reflexivity|]. unfold gappy.
    repeat constructor; unfold Year_le; simpl; lia. }
  apply (proj2 (latest_cell_is_last_available gappy gappy "France" 1 H
                  ltac:(simpl; lia))).
  eexists. split; [left|]. split; reflexivity.
Defined.

Example gappy_mixes_years :
  filter_step gappy =
  [ mkRow (Some "France") (Some "FRA") (Some 2023%Z)
      [0; 4; 24; 68; 108; 61; 16; 1; 0]%float ].
Proof. vm_compute. reflexivity. Qed.

(** A dated row and a row without a year of one country.  The sort puts
    the row without a year last, whatever the order of the input, so its
    code and its rates are the ones selected, next to the year of the
    other row. *)
Definition undated : frame :=
  [ mkRow (Some "Spain") (Some "ESP") (Some 2021%Z)
      [0; 5; 22; 55; 95; 64; 16; 1; 0]%float;
    mkRow (Some "Spain") (Some "XXX") None
      [0; 6; 24; 58; 98; 62; 14; 1; 0]%float ].

Example undated_row_overrides :
  filter_step undated =
    [ mkRow (Some "Spain") (Some "XXX") (Some 2021%Z)
        [0; 6; 24; 58; 98; 62; 14; 1; 0]%float ] ∧
  filter_step (rev undated) = filter_step undated.
Proof. split; vm_compute; reflexivity. Qed.

(** ** Rows keyed by entity and year *)

(** No two distinct rows of the frame give the same year for the same
    entity. *)
Definition keyed_by_Entity_Year (df : frame) : Prop :=
  ∀ r1 r2 e, r1 ∈ df → r2 ∈ df →
             Entity r1 = Some e → Entity r2 = Some e → Year r1 = Year r2 →
             r1 = r2.

Lemma year_le_antisym a b : year_le a b → year_le b a → a = b.
Proof. destruct a, b; simpl; try tauto. intros. f_equal. lia. Qed.

(** X4: when the rows are keyed by entity and year, the selected table
    depends neither on the order of the rows in the input nor on the
    order the sort gives them: any two year-sorted arrangements of the
    same rows select the same table. *)
Theorem selection_independent_of_row_order (df1 df2 s1 s2 : frame) :
  keyed_by_Entity_Year df1 → df2 ≡ₚ df1 →
  sorted_by_Year df1 s1 → sorted_by_Year df2 s2 →
  groupby_Entity_last s1 = groupby_Entity_last s2.
Proof.
  intros Hkey Hdf [Hp1 Hs1] [Hp2 Hs2].
  assert (s2 ≡ₚ s1) as Hp by (now rewrite Hp2, Hdf, Hp1).
  unfold groupby_Entity_last. rewrite (group_keys_Permutation _ _ Hp).
  apply list_fmap_ext. intros i k _. f_equal. unfold group, frame in *.
  apply StronglySorted_unique_strong with (R := Year_le).
  - intros r1 r2 [E1 H1]%list_elem_of_filter [E2 H2]%list_elem_of_filter L1 L2.
    rewrite Hp1 in H1. rewrite Hp, Hp1 in H2.
    apply (Hkey r1 r2 k); trivial. now apply year_le_antisym.
  - now apply StronglySorted_filter.
  - now apply StronglySorted_filter.
  - now rewrite Hp.
Qed.

(** [sample] is keyed; reversed, it sorts back to itself. *)
Lemma selection_independent_of_row_order_witness :
  groupby_Entity_last sample = groupby_Entity_last (sort_values_Year (rev sample)).
Proof.
  apply (selection_independent_of_row_order sample (rev sample)).
  - intros r1 r2 e H1 H2 E1 E2 Y. unfold sample in H1, H2.
    repeat (apply elem_of_cons in H1 as [->|H1]); [..|inversion H1];
      repeat (apply elem_of_cons in H2 as [->|H2]); try (inversion H2; fail);
      first [reflexivity | discriminate Y | (cbn in E1, E2; congruence)].
  - symmetry. apply Permutation_rev.
  - split; [reflexivity|]. unfold sample.
    repeat constructor; unfold Year_le; simpl; lia.
  - apply sort_values_Year_spec.
Defined.

(** Without the key the order of the sort shows: two rows of one entity
    and one year, in either order. *)
Example tie_depends_on_order :
  let a := mkRow (Some "Spain") (Some "ESP") (Some 2021%Z) [0; 5; 22; 55; 95; 64; 16; 1; 0]%float in
  let b := mkRow (Some "Spain") (Some "ESP") (Some 2021%Z) [0; 6; 24; 58; 98; 62; 14; 1; 0]%float in
  sorted_by_Year [a; b] [a; b] ∧ sorted_by_Year [a; b] [b; a] ∧
  groupby_Entity_last [a; b] = [b] ∧ groupby_Entity_last [b; a] = [a].
Proof.
  intros a b. split; [|split; [|split; reflexivity]].
  - split; [reflexivity|]. repeat constructor; unfold Year_le; simpl; lia.
  - split; [apply perm_swap|]. repeat constructor; unfold Year_le; simpl; lia.
Qed.

(** ** The selection of nothing *)

(** On a frame with rows the lines return what [filter_step] and
    [retained] compute. *)
Lemma run_returned (df : frame) :
  df ≠ [] →
  run_filter_step df = returned (filter_step df) ∧
  Indicators.run_retained df = returned (Indicators.retained df).
Proof.
  intros H. unfold Indicators.run_retained, Indicators.retained.
  destruct df as [|r df]; [contradiction|]. split; reflexivity.
Qed.

(** The frame without rows: line 31 raises [KeyError: 'Year']. *)
Example empty_frame_raises :
  run_filter_step [] = raised (KeyError "Year") ∧
  Indicators.run_retained [] = raised (KeyError "Year").
Proof. split; reflexivity. Qed.

(** X5: when the frame has rows and none has a code that passes the ISO-3
    test, lines 27 to 44 raise nothing and return empty tables: the
    filtered frame, the selected table and the table of retained rows
    are all empty. *)
Theorem no_ISO3_row_no_output (df : frame) :
  df ≠ [] → (∀ r, r ∈ df → is_iso3 r = false) →
  iso3_filter df = [] ∧
  run_filter_step df = returned [] ∧
  Indicators.run_retained df = returned [].
Proof.
  intros Hne H.
  assert (iso3_filter df = []) as E.
  { clear Hne. unfold iso3_filter. induction df as [|r df IH]; [reflexivity|].
    simpl. rewrite (H r) by left. apply IH. intros r' Hr'. apply H. now right. }
  destruct (run_returned df Hne) as [-> ->].
  unfold Indicators.retained, filter_step. rewrite E. repeat split.
Qed.

Lemma no_ISO3_row_no_output_witness :
  Indicators.run_retained
    [ mkRow (Some "World") (Some "OWID_WRL") (Some 2023%Z) [0; 40; 90; 110; 90; 50; 15; 2; 0]%float;
      mkRow (Some "Africa") None (Some 2023%Z) [1; 90; 180; 190; 150; 100; 40; 10; 1]%float ]
  = returned [].
Proof.
  apply no_ISO3_row_no_output; [discriminate|].
  intros r [->|[->|H]%elem_of_cons]%elem_of_cons; [reflexivity..|inversion H].
Defined.

(** ** Order and number of the retained rows *)

Lemma List_filter_fmap {A B} (p : B → bool) (g : A → B) (l : list A) :
  List.filter p (g <$> l) = g <$> List.filter (λ a, p (g a)) l.
Proof.
  induction l as [|a l IH]; [reflexivity|].
  cbn. destruct (p (g a)); cbn; now rewrite IH.
Qed.

Lemma List_filter_sublist {A} (p : A → bool) (l : list A) :
  List.filter p l `sublist_of` l.
Proof.
  induction l as [|a l IH]; [constructor|].
  simpl. destruct (p a); now constructor.
Qed.

Lemma StronglySorted_sublist {A} (R : relation A) (l1 l2 : list A) :
  l1 `sublist_of` l2 → StronglySorted R l2 → StronglySorted R l1.
Proof.
  induction 1 as [|x l1 l2 Hsub IH|x l1 l2 Hsub IH]; intros Hs.
  - constructor.
  - apply StronglySorted_cons in Hs as [Hx Hs].
    apply StronglySorted_cons. split; [|now apply IH].
    rewrite Forall_forall in Hx. apply Forall_forall.
    intros y Hy. apply Hx. eapply elem_of_sublist; eassumption.
  - apply StronglySorted_cons in Hs as [_ Hs]. now apply IH.
Qed.

Lemma group_keys_length (df : frame) :
  (List.length (group_keys df) ≤ List.length df)%nat.
Proof.
  unfold group_keys. rewrite merge_sort_Permutation.
  transitivity (List.length (omap Entity df)).
  - apply submseteq_length, NoDup_submseteq; [apply NoDup_remove_dups|].
    intros k. now rewrite elem_of_remove_dups.
  - unfold frame in *. induction df as [|r df IH]; [reflexivity|].
    cbn. destruct (Entity r); cbn; lia.
Qed.

(** X6: the retained rows come in ascending order of entity name, no
    entity twice: their entities are a sublist of the sorted group keys of
    the filtered frame.  So the sample size [len(latest)] is at most the
    number of distinct entities with an ISO-3 code, and at most the
    number of input rows. *)
Theorem retained_in_Entity_order (df : frame) :
  ∃ ks : list string,
    (λ x, Entity (Indicators.base x)) <$> Indicators.retained df = Some <$> ks ∧
    ks `sublist_of` group_keys (iso3_filter df) ∧
    StronglySorted str_le ks ∧ NoDup ks ∧
    (List.length (Indicators.retained df) ≤
       List.length (group_keys (iso3_filter df)))%nat ∧
    (List.length (Indicators.retained df) ≤ List.length df)%nat.
Proof.
  unfold Indicators.retained, Indicators.drop_step, Indicators.positive_TFR,
    Indicators.dropna, Indicators.assign, filter_step, latest_of,
    groupby_Entity_last.
  rewrite (group_keys_Permutation _ _ (proj1 (sort_values_Year_spec (iso3_filter df)))).
  set (keys := group_keys (iso3_filter df)).
  rewrite <- list_fmap_compose, !List_filter_fmap.
  match goal with
  | |- context [ _ <$> List.filter ?p (List.filter ?q keys) ] =>
      set (ks := List.filter p (List.filter q keys))
  end.
  assert (ks `sublist_of` keys) as Hsub.
  { unfold ks. etransitivity; apply List_filter_sublist. }
  exists ks. rewrite <- list_fmap_compose, !length_fmap.
  pose proof (sublist_length _ _ Hsub) as Hlen.
  repeat split; trivial.
  - eapply StronglySorted_sublist; [exact Hsub | apply group_keys_sorted].
  - eapply sublist_NoDup; [apply group_keys_NoDup | exact Hsub].
  - etransitivity; [exact Hlen|]. etransitivity; [apply group_keys_length|].
    unfold iso3_filter. apply sublist_length, List_filter_sublist.
Qed.

(* ===================================================================== *)
(** * 9. Further properties of the indicators *)
(* ===================================================================== *)

Section special_values.
#[local] Open Scope float_scope.

(** NaN and the two infinities. *)
Definition special (x : float) : Prop :=
  match Prim2SF x with
  | S754_nan | S754_infinity _ => True
  | _ => False
  end.

Lemma not_finite_special x : is_finite x = false → special x.
Proof.
  unfold is_finite, special. rewrite negb_false_iff, orb_true_iff.
  intros [H|H].
  - apply is_nan_eq in H. now subst x.
  - unfold is_infinity in H.
    rewrite FloatAxioms.eqb_spec, abs_spec in H.
    destruct (Prim2SF x) as [s|s| |s m e]; trivial; discriminate H.
Qed.

Lemma add_special_l a b : special a → special (a + b).
Proof.
  unfold special. rewrite add_spec. unfold SF64add, SFadd.
  destruct (Prim2SF a) as [sa|sa| |sa ma ea]; try contradiction; intros _;
    destruct (Prim2SF b) as [sb|sb| |sb mb eb]; trivial;
    destruct sa, sb; exact I.
Qed.

Lemma add_special_r a b : special b → special (a + b).
Proof.
  unfold special. rewrite add_spec. unfold SF64add, SFadd.
  destruct (Prim2SF b) as [sb|sb| |sb mb eb]; try contradiction; intros _;
    destruct (Prim2SF a) as [sa|sa| |sa ma ea]; trivial;
    destruct sa, sb; exact I.
Qed.

Lemma mul_special_l a b : special a → special (a * b).
Proof.
  unfold special. rewrite mul_spec. unfold SF64mul, SFmul.
  destruct (Prim2SF a) as [sa|sa| |sa ma ea]; try contradiction; intros _;
    destruct (Prim2SF b) as [sb|sb| |sb mb eb]; exact I.
Qed.

Lemma div_special a b : special a → special b → a / b = nan.
Proof.
  unfold special. intros Ha Hb. apply Prim2SF_inj.
  rewrite div_spec. change (Prim2SF nan) with S754_nan. unfold SF64div, SFdiv.
  destruct (Prim2SF a) as [sa|sa| |sa ma ea]; try contradiction;
    destruct (Prim2SF b) as [sb|sb| |sb mb eb]; try contradiction; reflexivity.
Qed.

Lemma fold_add_special_acc l acc :
  special acc → special (fold_left PrimFloat.add l acc).
Proof.
  revert acc. induction l as [|x l IH]; intros acc H; [exact H|].
  simpl. apply IH. now apply add_special_l.
Qed.

Lemma fold_add_special l acc :
  Exists special l → special (fold_left PrimFloat.add l acc).
Proof.
  intros H. revert acc. induction H as [x l Hx|x l Hl IH]; intros acc.
  - simpl. apply fold_add_special_acc. now apply add_special_r.
  - simpl. apply IH.
Qed.

Lemma np_sum_special l : Exists special l → special (np_sum l).
Proof. apply fold_add_special. Qed.

Lemma zip_add_special_l (l1 l2 : list float) :
  Exists special l1 → (List.length l1 ≤ List.length l2)%nat →
  Exists special (zip_with PrimFloat.add l1 l2).
Proof.
  intros H. revert l2. induction H as [x l Hx|x l Hl IH]; intros [|m ms] Hlen;
    simpl in Hlen; try lia.
  - left. now apply add_special_l.
  - right. apply IH. lia.
Qed.

Lemma zip_add_special_r (l1 l2 : list float) :
  Exists special l2 → (List.length l2 ≤ List.length l1)%nat →
  Exists special (zip_with PrimFloat.add l1 l2).
Proof.
  intros H. revert l1. induction H as [x l Hx|x l Hl IH]; intros [|m ms] Hlen;
    simpl in Hlen; try lia.
  - left. now apply add_special_r.
  - right. apply IH. lia.
Qed.

(** The eight partial sums of the unrolled loop keep a NaN or an infinity
    that is among them or among the values still to be added. *)
Lemma add_blocks_special fuel (r l : list float) :
  List.length r = 8%nat → Exists special r ∨ Exists special l →
  List.length (add_blocks fuel r l).1 = 8%nat ∧
  (Exists special (add_blocks fuel r l).1 ∨ Exists special (add_blocks fuel r l).2).
Proof.
  revert r l. induction fuel as [|fuel IH]; intros r l Hr H; [now split|].
  cbn [add_blocks]. destruct (8 <=? List.length l)%nat eqn:E; [|now split].
  apply Nat.leb_le in E.
  assert (List.length (take 8 l) = 8%nat) as Ht by (rewrite length_take; lia).
  apply IH.
  - rewrite length_zip_with. lia.
  - destruct H as [H|H].
    + left. apply zip_add_special_l; [exact H | lia].
    + rewrite <- (take_drop 8 l) in H. apply Exists_app in H as [H|H].
      * left. apply zip_add_special_r; [exact H | lia].
      * now right.
Qed.

Lemma pairwise_sum_special l : Exists special l → special (pairwise_sum l).
Proof.
  intros H. unfold pairwise_sum.
  destruct (List.length l <? 8)%nat eqn:E; [now apply fold_add_special|].
  apply Nat.ltb_ge in E.
  destruct (add_blocks_special (List.length l) (take 8 l) (drop 8 l))
    as [Hlen Hs].
  { rewrite length_take. lia. }
  { rewrite <- (take_drop 8 l) in H. now apply Exists_app in H. }
  destruct (add_blocks (List.length l) (take 8 l) (drop 8 l)) as [r rest].
  cbn [fst snd] in Hlen, Hs.
  destruct r as [|r0 [|r1 [|r2 [|r3 [|r4 [|r5 [|r6 [|r7 [|r8 r]]]]]]]]];
    try discriminate Hlen.
  destruct Hs as [Hs|Hs]; [|now apply fold_add_special].
  apply fold_add_special_acc.
  repeat match goal with
  | H : Exists special (_ :: _) |- _ => apply Exists_cons in H as [H|H]
  | H : Exists special [] |- _ => apply Exists_nil in H; contradiction
  end;
    repeat first [ assumption
                 | apply add_special_l; assumption
                 | apply add_special_r; assumption
                 | apply add_special_l; apply add_special_l; assumption
                 | apply add_special_l; apply add_special_r; assumption
                 | apply add_special_r; apply add_special_l; assumption
                 | apply add_special_r; apply add_special_r; assumption
                 | apply add_special_l; apply add_special_l; apply add_special_l; assumption
                 | apply add_special_l; apply add_special_l; apply add_special_r; assumption
                 | apply add_special_l; apply add_special_r; apply add_special_l; assumption
                 | apply add_special_l; apply add_special_r; apply add_special_r; assumption
                 | apply add_special_r; apply add_special_l; apply add_special_l; assumption
                 | apply add_special_r; apply add_special_l; apply add_special_r; assumption
                 | apply add_special_r; apply add_special_r; apply add_special_l; assumption
                 | apply add_special_r; apply add_special_r; apply add_special_r; assumption ].
Qed.

Lemma row_sum_special nrows l : Exists special l → special (row_sum nrows l).
Proof.
  intros H. unfold row_sum. destruct (nrows =? 1)%nat.
  - now apply add_special_r, pairwise_sum_special.
  - now apply np_sum_special.
Qed.

Lemma weighted_special (l ms : list float) :
  Exists special l → (List.length l ≤ List.length ms)%nat →
  Exists special (zip_with PrimFloat.mul l ms).
Proof.
  intros H. revert ms. induction H as [x l Hx|x l Hl IH]; intros [|m ms] Hlen;
    simpl in Hlen; try lia.
  - left. now apply mul_special_l.
  - right. apply IH. lia.
Qed.

(** A row with a NaN or infinite rate among its nine has a NaN MAC,
    whatever the number of rows of the table. *)
Lemma mac_special nrows (asfr : list float) :
  Exists special asfr → (List.length asfr ≤ 9)%nat → mac_at nrows asfr = nan.
Proof.
  intros H Hlen. unfold mac_at, total_rate_at. apply div_special.
  - apply row_sum_special, weighted_special; [exact H | exact Hlen].
  - now apply row_sum_special.
Qed.

End special_values.

(** The code of a selected row passes the ISO-3 test, however the sort
    arranges rows of the same year. *)
Lemma selected_Code (df s : frame) (o : row) :
  sorted_by_Year (iso3_filter df) s → o ∈ groupby_Entity_last s →
  ∃ c, Code o = Some c ∧ Regex.re_match Regex.iso3 c = true.
Proof.
  intros Hsort (k & Hk & ->)%elem_of_groupby.
  apply elem_of_group_keys in Hk as (r0 & Hr0 & He0).
  destruct (group_last (iso3_filter df) _ k Hsort) as (g & r & Hg & _ & Hr & _).
  { exists r0. split; [|exact He0]. now rewrite <- (proj1 Hsort). }
  apply elem_of_iso3_filter in Hr as [_ Hiso].
  destruct (is_iso3_Code r Hiso) as (c & Hc & Hm).
  exists c. split; [|exact Hm]. rewrite Hg. now apply agg_last_Code.
Qed.

(** X7: what every retained row carries, however the sort arranges rows
    of the same year: an entity, a code that passes the ISO-3 test, nine
    rate cells, a TFR that is positive, and a TFR and a MAC that are not
    NaN. *)
Theorem retained_row_sound (df s : frame) (x : indicators) :
  sorted_by_Year (iso3_filter df) s →
  x ∈ drop_step (assign (groupby_Entity_last s)) →
  (∃ e, Entity (base x) = Some e) ∧
  (∃ c, Code (base x) = Some c ∧ Regex.re_match Regex.iso3 c = true) ∧
  List.length (rates (base x)) = 9%nat ∧
  PrimFloat.ltb 0 (TFR x) = true ∧
  is_nan (TFR x) = false ∧ is_nan (MAC x) = false.
Proof.
  intros Hsort Hx.
  apply elem_of_drop_step in Hx as (Hx & Ht & Hm & Hpos).
  apply list_elem_of_fmap in Hx as (r & -> & Hr). cbn [base TFR MAC] in *.
  destruct (selected_Code df s r Hsort Hr) as (c & Hc & Hmatch).
  apply elem_of_groupby in Hr as (k & _ & ->).
  repeat split; trivial.
  - exists k. reflexivity.
  - exists c. auto.
Qed.

Lemma retained_row_sound_witness :
  retained sample ≠ [] ∧
  Forall (λ x, PrimFloat.ltb 0 (TFR x) = true ∧ is_nan (MAC x) = false)
         (retained sample).
Proof.
  split; [vm_compute; discriminate|].
  apply Forall_forall. intros x Hx.
  destruct (retained_row_sound sample (sort_values_Year (iso3_filter sample)) x
              (sort_values_Year_spec _) Hx) as (_ & _ & _ & Hpos & _ & Hm).
  split; [exact Hpos | exact Hm].
Defined.

(** X8: every rate of a retained row is a finite number.  A selected row
    that still has a missing rate cell, or an infinite one, gets a NaN
    MAC and is dropped. *)
Theorem retained_rates_finite (df : frame) (x : indicators) :
  x ∈ retained df → Forall (λ r, is_finite r = true) (rates (base x)).
Proof.
  intros Hx. unfold retained in Hx.
  apply elem_of_drop_step in Hx as (Hx & _ & Hm & _).
  apply list_elem_of_fmap in Hx as (r & -> & Hr). cbn [base MAC] in *.
  apply elem_of_groupby in Hr as (k & _ & ->).
  apply Forall_forall. intros f Hf.
  destruct (is_finite f) eqn:E; [reflexivity|]. exfalso.
  rewrite mac_special in Hm; [discriminate Hm| |].
  - apply Exists_exists. exists f. split; [exact Hf | now apply not_finite_special].
  - now rewrite agg_last_rates_length.
Qed.

Lemma retained_rates_finite_witness :
  Forall (λ x, Forall (λ r, is_finite r = true) (rates (base x))) (retained sample).
Proof.
  apply Forall_forall. intros x Hx. apply (retained_rates_finite sample x Hx).
Defined.

(** A country none of whose years has the first rate is dropped. *)
Example missing_column_dropped :
  retained
    [ mkRow (Some "Spain") (Some "ESP") (Some 2019%Z) [nan; 6; 24; 58; 98; 62; 14; 1; 0]%float;
      mkRow (Some "Spain") (Some "ESP") (Some 2021%Z) [nan; 5; 22; 55; 95; 64; 16; 1; 0]%float ]
  = [].
Proof. vm_compute. reflexivity. Qed.

(* ===================================================================== *)
(** * 10. The plot: colours and labels *)
(* ===================================================================== *)

Module Plot.
Import Table Indicators.

(** [palette]: the colour of each region.  [palette[region]] raises
    [KeyError] on a missing key; here the lookup answers [None]. *)
Definition palette : gmap string string := list_to_map [
  ("Africa", "#e06c1a");
  ("Europe", "#3a7eca");
  ("Americas", "#2ca02c");
  ("Asia & Middle East", "#9467bd");
  ("Oceania", "#d62728")].

(** [latest.groupby("Region")]: the regions present, sorted, each with
    its rows in the order of the table. *)
Definition region_keys (t : list indicators) : list string :=
  merge_sort str_le (remove_dups (Region <$> t)).

Definition region_groups (t : list indicators) : list (string * list indicators) :=
  (λ reg, (reg, filter (λ x, Region x = reg) t)) <$> region_keys t.

(** One [ax.scatter] call of the loop of lines 96 to 99: the colour, the
    legend label and the points; [None] stands for the [KeyError]. *)
Definition scatter (g : string * list indicators) :
    option (string * string * list (float * float)) :=
  match palette !! g.1 with
  | Some colour => Some (colour, g.1, (λ x, (MAC x, TFR x)) <$> g.2)
  | None => None
  end.

(** [label_codes] *)
Definition label_codes : gset string := list_to_set [
  "NER";"TCD";"MLI";"SOM";"AGO";
  "KOR";"JPN";"HKG";"SGP";"ITA";"ESP";
  "SWE";"NOR";"FIN";"ISL";
  "USA";"GBR";"FRA";"BRA";"CHN";"IND";
  "NGA";"ETH";"COD"].

(** [offsets] *)
Definition offsets : gmap string (float * float) := list_to_map [
  ("NER", (-0.6, 0.15)); ("TCD", (0.15, -0.35)); ("MLI", (0.15, 0.1));
  ("SOM", (-1.5, 0.1));  ("AGO", (0.15, 0.1));
  ("KOR", (-1.4, 0.05)); ("JPN", (0.15, -0.3));
  ("ITA", (-1.3, 0.1));  ("ESP", (0.15, 0.1));
  ("SWE", (0.15, 0.1));  ("NOR", (-1.5, 0.1)); ("ISL", (-1.6, -0.3));
  ("FIN", (-1.4, -0.3));
  ("USA", (0.15, 0.1));  ("GBR", (-1.4, 0.1)); ("FRA", (0.15, -0.3));
  ("BRA", (0.15, 0.1));  ("CHN", (-1.4, -0.3)); ("IND", (0.15, 0.1));
  ("NGA", (0.15, 0.1));  ("ETH", (-1.6, -0.3)); ("COD", (0.15, 0.1));
  ("HKG", (0.15, 0.1));  ("SGP", (0.15, -0.3))]%float.

(** The second argument of [offsets.get]. *)
Definition default_offset : float * float := (0.15, 0.1)%float.

(** The arguments of one [ax.annotate] call that depend on the row. *)
Record annotation : Type := mkAnn {
  text : string;
  xy : float * float;
  xytext : float * float
}.

(** The body of the loop of lines 125 to 137 on one row: nothing when the
    code is not in [label_codes] (a missing code is in no set). *)
Definition annotate (x : indicators) : option annotation :=
  match Code (base x) with
  | Some c =>
      if decide (c ∈ label_codes) then
        let d := default default_offset (offsets !! c) in
        Some {| text := c;
                xy := (MAC x, TFR x);
                xytext := (MAC x + d.1, TFR x + d.2)%float |}
      else None
  | None => None
  end.

(** The annotations drawn, in the order of [latest.iterrows()]. *)
Definition annotations (t : list indicators) : list annotation := omap annotate t.

End Plot.

Import Plot.

(** ** The scatter loop *)

Lemma Region_label (x : indicators) : Region x ∈ Regions.labels.
Proof.
  unfold Region, get_region, labels.
  destruct (Code (base x)) as [c|];
    [destruct (decide (c ∈ africa)), (decide (c ∈ europe)),
       (decide (c ∈ americas)), (decide (c ∈ oceania))|];
    repeat first [apply list_elem_of_here | apply list_elem_of_further].
Qed.

Lemma palette_label (l : string) : l ∈ Regions.labels → is_Some (palette !! l).
Proof.
  unfold labels. intros H.
  repeat (apply elem_of_cons in H as [->|H]); [..|inversion H];
    vm_compute; eauto.
Qed.

(** Groups taken on distinct keys split the rows whose key is listed. *)
Lemma filter_key_cons {A} (key : A → string) (k0 : string) (ks : list string)
    (l : list A) :
  k0 ∉ ks →
  filter (λ x, key x = k0) l ++ filter (λ x, key x ∈ ks) l ≡ₚ
  filter (λ x, key x ∈ k0 :: ks) l.
Proof.
  intros Hk0. induction l as [|x l IH]; [reflexivity|].
  rewrite !filter_cons.
  destruct (decide (key x = k0)) as [E|E].
  - rewrite decide_False by (rewrite E; exact Hk0).
    rewrite decide_True by (rewrite E; left). cbn. now rewrite IH.
  - destruct (decide (key x ∈ ks)) as [H|H].
    + rewrite decide_True by now right.
      rewrite <- Permutation_middle. now rewrite IH.
    + rewrite decide_False; [exact IH|].
      intros [?|?]%elem_of_cons; [now apply E | now apply H].
Qed.

Lemma concat_groups {A} (key : A → string) (ks : list string) (l : list A) :
  NoDup ks → (∀ x, x ∈ l → key x ∈ ks) →
  concat ((λ k, filter (λ x, key x = k) l) <$> ks) ≡ₚ l.
Proof.
  intros Hn Hall.
  transitivity (filter (λ x, key x ∈ ks) l).
  - clear Hall. induction Hn as [|k0 ks Hk0 Hn IH].
    + cbn. induction l as [|x l IHl]; [reflexivity|].
      rewrite filter_cons, decide_False; [exact IHl|]. intros H. inversion H.
    + cbn. rewrite IH. now apply filter_key_cons.
  - induction l as [|x l IH]; [reflexivity|].
    rewrite filter_cons, decide_True by (apply Hall; left).
    rewrite IH; [reflexivity|]. intros y Hy. apply Hall. now right.
Qed.

Lemma elem_of_region_keys (t : list indicators) (reg : string) :
  reg ∈ region_keys t ↔ ∃ x, x ∈ t ∧ Region x = reg.
Proof.
  unfold region_keys. rewrite merge_sort_Permutation, elem_of_remove_dups.
  rewrite list_elem_of_fmap. split; intros (x & H1 & H2); eauto.
Qed.

Lemma region_keys_NoDup (t : list indicators) : NoDup (region_keys t).
Proof.
  unfold region_keys. rewrite merge_sort_Permutation. apply NoDup_remove_dups.
Qed.

(** X9: the scatter loop draws every row of the table exactly once.  The
    groups of [groupby("Region")] together hold the rows of the table,
    each row in the group of its own region; no group is empty, no region
    comes twice, there are at most five groups, and the colour lookup
    succeeds for each of them: [palette[region]] raises no [KeyError]. *)
Theorem every_point_drawn_once (t : list indicators) :
  concat (snd <$> region_groups t) ≡ₚ t ∧
  Forall (λ g, is_Some (scatter g) ∧ g.2 ≠ [] ∧ Forall (λ x, Region x = g.1) g.2)
         (region_groups t) ∧
  NoDup (fst <$> region_groups t) ∧
  (List.length (region_groups t) ≤ 5)%nat.
Proof.
  unfold region_groups. rewrite <- !list_fmap_compose.
  split; [|split; [|split]].
  - apply (concat_groups Region); [apply region_keys_NoDup|].
    intros x Hx. apply elem_of_region_keys. eauto.
  - apply Forall_fmap, Forall_forall. intros reg Hreg.
    unfold compose. cbn [fst snd].
    apply elem_of_region_keys in Hreg as (x & Hx & <-).
    split; [|split].
    + unfold scatter. cbn [fst snd].
      destruct (palette_label _ (Region_label x)) as [c ->]. eauto.
    + intros E. apply (filter_nil_not_elem_of _ _ x E); [reflexivity | exact Hx].
    + apply Forall_forall. now intros y [Hy _]%list_elem_of_filter.
  - unfold compose. cbn [fst]. rewrite list_fmap_id. apply region_keys_NoDup.
  - rewrite length_fmap.
    change 5%nat with (List.length Regions.labels).
    apply submseteq_length, NoDup_submseteq; [apply region_keys_NoDup|].
    intros reg (x & _ & <-)%elem_of_region_keys. apply Region_label.
Qed.

(** ** The labels *)

Lemma label_codes_offsets (c : string) : c ∈ label_codes → is_Some (offsets !! c).
Proof.
  intros H. apply elem_of_elements in H. revert c H. apply Forall_forall.
  apply (bool_decide_unpack _). vm_compute. exact I.
Qed.

(** X10: every label drawn belongs to a row of the table whose code is in
    [label_codes], is anchored at the point of that row, and is shifted by
    the offset that [offsets] holds for the code: all codes of
    [label_codes] are keys of [offsets], so the default of [offsets.get]
    is never what places a label. *)
Theorem annotations_use_custom_offsets (t : list indicators) (a : annotation) :
  a ∈ annotations t →
  text a ∈ label_codes ∧
  ∃ x d, x ∈ t ∧ Code (base x) = Some (text a) ∧
         offsets !! text a = Some d ∧
         xy a = (MAC x, TFR x) ∧
         xytext a = (PrimFloat.add (MAC x) d.1, PrimFloat.add (TFR x) d.2).
Proof.
  intros (x & Hx & Ha)%list_elem_of_omap. unfold annotate in Ha.
  destruct (Code (base x)) as [c|] eqn:Hc; [|discriminate Ha].
  destruct (decide (c ∈ label_codes)) as [Hin|]; [|discriminate Ha].
  destruct (label_codes_offsets c Hin) as [d Hd].
  rewrite Hd in Ha. apply (inj Some) in Ha. subst a. cbn [text xy xytext].
  split; [exact Hin|]. exists x, d. auto.
Qed.

Lemma annotations_use_custom_offsets_witness :
  Forall (λ a, text a ∈ label_codes) (annotations (retained sample)).
Proof.
  apply Forall_forall. intros a Ha.
  apply (annotations_use_custom_offsets (retained sample) a Ha).
Defined.

Example sample_annotations :
  text <$> annotations (retained sample) = ["ESP"].
Proof. vm_compute. reflexivity. Qed.
